(** * Reaction adjustments of the VCS equilibrium solver

    A shallow embedding of [Cantera/src/equil/vcs_rxnadj.cpp]
    (class [VCS_SOLVE], namespace [VCSnonideal]) and the properties of
    its reaction-adjustment step, Hessian-diagonal correction and line
    search.

    Number model.  The source computes on C++ [double]s.  The code is
    embedded twice.

    In the first embedding a [double] is an exact rational ([Q]): sums,
    products and quotients are not rounded, there is no infinity and no
    NaN, and [x / 0] is [0] as in [QArith].  Every comparison of the
    source is the corresponding decidable comparison on [Q].  This
    embedding carries the results on control flow and on what is
    written where: which branch is taken, what is returned, which
    members change, and by which expression of the source a value is
    computed.  Equalities between computed numbers are stated with
    [==] ([Qeq]); an equality stated with [=] names the expression the
    code evaluates.

    In the second embedding (module [B64]) a [double] is a binary64
    number with the rounding of IEEE 754.  It carries the results that
    depend on rounding and underflow.

    Arrays ([std::vector], [double *], [int *]) are lists read with
    [!!!] and written with [<[ i := v ]>].  The source indexes without
    a bounds check; here a read out of range yields the inhabitant that
    [stdpp] gives the element type ([0] for a [double] and for an index,
    [1] for a [Z], [true] for a [bool], the empty list for a row) and a
    write out of range does nothing, and the theorems that depend on
    indices being in range say so.

    The non-debug build is modelled: the [DEBUG_MODE] blocks only
    print. *)

From Stdlib Require Import QArith Qabs Qminmax Lqa ZArith List Bool Lia.
From Stdlib Require Import PrimFloat.
From Stdlib Require FloatOps SpecFloat.
From stdpp Require Import base list.

(** Decimal constants of the source that are not doubles stand for the
    nearest double. *)
Set Warnings "-inexact-float".

Open Scope Q_scope.

(** ** Doubles as exact rationals *)

Abbreviation double := Q (only parsing).

#[global] Instance Q_inhabited : Inhabited Q := populate 0.

(** [x < y], [x > y], [x >= y], [x != y] and [x == y] of the source. *)
Definition Qltb (x y : Q) : bool := negb (Qle_bool y x).
Definition Qgtb (x y : Q) : bool := Qltb y x.
Definition Qgeb (x y : Q) : bool := Qle_bool y x.
Definition Qneb (x y : Q) : bool := negb (Qeq_bool x y).

(** [SQUARE(x)] of [vcs_internal.h]. *)
Definition SQUARE (x : Q) : Q := x * x.

(** [fabs] of [math.h]. *)
Definition fabs (x : Q) : Q := Qabs x.

(** ** The solver state

    The members of [VCS_SOLVE] that [vcs_rxnadj.cpp] reads or writes.
    [VPhaseList_SingleSpecies] holds [VPhaseList[j]->SingleSpecies] for
    every phase [j]. *)
Record VCS_SOLVE : Type := mkVCS {
  m_numRxnRdc : nat;
  m_numComponents : nat;
  m_numSpeciesRdc : nat;
  NPhase : nat;
  ir : list nat;
  PhaseID : list nat;
  SSPhase : list bool;
  VPhaseList_SingleSpecies : list bool;
  PhaseParticipation : list (list Z);
  sc : list (list double);
  DnPhase : list (list double);
  dLnActCoeffdMolNum : list (list double);
  tolmaj2 : double;
  dg : list double;
  soln : list double;
  TPhMoles : list double;
  ds : list double;
  spStatus : list Z;
  m_numRxnMinorZeroed : Z;
  wt : list double;
  ActCoeff0 : list double;
  ActCoeff : list double;
  m_feSpecies_old : list double;
  m_feSpecies_new : list double
}.

(** Assignments to the members the code writes. *)
Definition set_soln (v : list double) (st : VCS_SOLVE) : VCS_SOLVE :=
  mkVCS (m_numRxnRdc st) (m_numComponents st) (m_numSpeciesRdc st) (NPhase st)
        (ir st) (PhaseID st) (SSPhase st) (VPhaseList_SingleSpecies st)
        (PhaseParticipation st) (sc st) (DnPhase st) (dLnActCoeffdMolNum st)
        (tolmaj2 st) (dg st) v (TPhMoles st) (ds st) (spStatus st)
        (m_numRxnMinorZeroed st) (wt st) (ActCoeff0 st) (ActCoeff st)
        (m_feSpecies_old st) (m_feSpecies_new st).

Definition set_TPhMoles (v : list double) (st : VCS_SOLVE) : VCS_SOLVE :=
  mkVCS (m_numRxnRdc st) (m_numComponents st) (m_numSpeciesRdc st) (NPhase st)
        (ir st) (PhaseID st) (SSPhase st) (VPhaseList_SingleSpecies st)
        (PhaseParticipation st) (sc st) (DnPhase st) (dLnActCoeffdMolNum st)
        (tolmaj2 st) (dg st) (soln st) v (ds st) (spStatus st)
        (m_numRxnMinorZeroed st) (wt st) (ActCoeff0 st) (ActCoeff st)
        (m_feSpecies_old st) (m_feSpecies_new st).

Definition set_ds (v : list double) (st : VCS_SOLVE) : VCS_SOLVE :=
  mkVCS (m_numRxnRdc st) (m_numComponents st) (m_numSpeciesRdc st) (NPhase st)
        (ir st) (PhaseID st) (SSPhase st) (VPhaseList_SingleSpecies st)
        (PhaseParticipation st) (sc st) (DnPhase st) (dLnActCoeffdMolNum st)
        (tolmaj2 st) (dg st) (soln st) (TPhMoles st) v (spStatus st)
        (m_numRxnMinorZeroed st) (wt st) (ActCoeff0 st) (ActCoeff st)
        (m_feSpecies_old st) (m_feSpecies_new st).

Definition set_spStatus (v : list Z) (st : VCS_SOLVE) : VCS_SOLVE :=
  mkVCS (m_numRxnRdc st) (m_numComponents st) (m_numSpeciesRdc st) (NPhase st)
        (ir st) (PhaseID st) (SSPhase st) (VPhaseList_SingleSpecies st)
        (PhaseParticipation st) (sc st) (DnPhase st) (dLnActCoeffdMolNum st)
        (tolmaj2 st) (dg st) (soln st) (TPhMoles st) (ds st) v
        (m_numRxnMinorZeroed st) (wt st) (ActCoeff0 st) (ActCoeff st)
        (m_feSpecies_old st) (m_feSpecies_new st).

Definition set_numRxnMinorZeroed (v : Z) (st : VCS_SOLVE) : VCS_SOLVE :=
  mkVCS (m_numRxnRdc st) (m_numComponents st) (m_numSpeciesRdc st) (NPhase st)
        (ir st) (PhaseID st) (SSPhase st) (VPhaseList_SingleSpecies st)
        (PhaseParticipation st) (sc st) (DnPhase st) (dLnActCoeffdMolNum st)
        (tolmaj2 st) (dg st) (soln st) (TPhMoles st) (ds st) (spStatus st)
        v (wt st) (ActCoeff0 st) (ActCoeff st)
        (m_feSpecies_old st) (m_feSpecies_new st).

Definition set_wt (v : list double) (st : VCS_SOLVE) : VCS_SOLVE :=
  mkVCS (m_numRxnRdc st) (m_numComponents st) (m_numSpeciesRdc st) (NPhase st)
        (ir st) (PhaseID st) (SSPhase st) (VPhaseList_SingleSpecies st)
        (PhaseParticipation st) (sc st) (DnPhase st) (dLnActCoeffdMolNum st)
        (tolmaj2 st) (dg st) (soln st) (TPhMoles st) (ds st) (spStatus st)
        (m_numRxnMinorZeroed st) v (ActCoeff0 st) (ActCoeff st)
        (m_feSpecies_old st) (m_feSpecies_new st).

Definition set_ActCoeff0 (v : list double) (st : VCS_SOLVE) : VCS_SOLVE :=
  mkVCS (m_numRxnRdc st) (m_numComponents st) (m_numSpeciesRdc st) (NPhase st)
        (ir st) (PhaseID st) (SSPhase st) (VPhaseList_SingleSpecies st)
        (PhaseParticipation st) (sc st) (DnPhase st) (dLnActCoeffdMolNum st)
        (tolmaj2 st) (dg st) (soln st) (TPhMoles st) (ds st) (spStatus st)
        (m_numRxnMinorZeroed st) (wt st) v (ActCoeff st)
        (m_feSpecies_old st) (m_feSpecies_new st).

Definition set_ActCoeff (v : list double) (st : VCS_SOLVE) : VCS_SOLVE :=
  mkVCS (m_numRxnRdc st) (m_numComponents st) (m_numSpeciesRdc st) (NPhase st)
        (ir st) (PhaseID st) (SSPhase st) (VPhaseList_SingleSpecies st)
        (PhaseParticipation st) (sc st) (DnPhase st) (dLnActCoeffdMolNum st)
        (tolmaj2 st) (dg st) (soln st) (TPhMoles st) (ds st) (spStatus st)
        (m_numRxnMinorZeroed st) (wt st) (ActCoeff0 st) v
        (m_feSpecies_old st) (m_feSpecies_new st).

Definition set_feSpecies_old (v : list double) (st : VCS_SOLVE) : VCS_SOLVE :=
  mkVCS (m_numRxnRdc st) (m_numComponents st) (m_numSpeciesRdc st) (NPhase st)
        (ir st) (PhaseID st) (SSPhase st) (VPhaseList_SingleSpecies st)
        (PhaseParticipation st) (sc st) (DnPhase st) (dLnActCoeffdMolNum st)
        (tolmaj2 st) (dg st) (soln st) (TPhMoles st) (ds st) (spStatus st)
        (m_numRxnMinorZeroed st) (wt st) (ActCoeff0 st) (ActCoeff st)
        v (m_feSpecies_new st).

Definition set_feSpecies_new (v : list double) (st : VCS_SOLVE) : VCS_SOLVE :=
  mkVCS (m_numRxnRdc st) (m_numComponents st) (m_numSpeciesRdc st) (NPhase st)
        (ir st) (PhaseID st) (SSPhase st) (VPhaseList_SingleSpecies st)
        (PhaseParticipation st) (sc st) (DnPhase st) (dLnActCoeffdMolNum st)
        (tolmaj2 st) (dg st) (soln st) (TPhMoles st) (ds st) (spStatus st)
        (m_numRxnMinorZeroed st) (wt st) (ActCoeff0 st) (ActCoeff st)
        (m_feSpecies_old st) v.

(** [for (j = 0; j < n; ++j) body]: the loop variable runs over
    [0 .. n-1] and the body transforms the loop-carried value. *)
Definition for_loop {A : Type} (n : nat) (body : nat -> A -> A) (a : A) : A :=
  fold_left (fun acc j => body j acc) (seq 0 n) a.

(** ** The Hessian diagonal *)

(** [VCS_SOLVE::vcs_Hessian_actCoeff_diag]. *)
Definition vcs_Hessian_actCoeff_diag (st : VCS_SOLVE) (irxn : nat) : double :=
  let kspec := ir st !!! irxn in
  let kph := PhaseID st !!! kspec in
  let sc_irxn := sc st !!! irxn in
  let J := dLnActCoeffdMolNum st in
  let s := (J !!! kspec) !!! kspec in
  for_loop (m_numComponents st) (fun l s =>
    if negb (SSPhase st !!! l) then
      let s := for_loop (m_numComponents st) (fun k s =>
                 if Nat.eqb (PhaseID st !!! k) (PhaseID st !!! l)
                 then s + sc_irxn !!! k * sc_irxn !!! l * (J !!! k) !!! l
                 else s) s in
      if Nat.eqb kph (PhaseID st !!! l)
      then s + sc_irxn !!! l * ((J !!! kspec) !!! l + (J !!! l) !!! kspec)
      else s
    else s) s.

(** The clamp of the source, after the precondition test: what is done
    to [diag] once [hessActCoef] is known. *)
Definition hessian_clamp (hessianDiag_Ideal hessActCoef : double) : double :=
  let diag := hessianDiag_Ideal in
  if Qgeb hessActCoef 0.0 then diag + hessActCoef
  else if Qltb (fabs hessActCoef) (0.6666 * hessianDiag_Ideal)
       then diag + hessActCoef
       else diag - 0.6666 * hessianDiag_Ideal.

(** [VCS_SOLVE::vcs_Hessian_diag_adj].  [None] is [exit(-1)]: the
    process ends and no value is returned. *)
Definition vcs_Hessian_diag_adj (st : VCS_SOLVE) (irxn : nat)
    (hessianDiag_Ideal : double) : option double :=
  let hessActCoef := vcs_Hessian_actCoeff_diag st irxn in
  if Qle_bool hessianDiag_Ideal 0.0 then None
  else Some (hessian_clamp hessianDiag_Ideal hessActCoef).

(** ** Writing one array element *)

Definition soln_set (i : nat) (v : double) (st : VCS_SOLVE) : VCS_SOLVE :=
  set_soln (<[ i := v ]> (soln st)) st.
Definition TPhMoles_set (p : nat) (v : double) (st : VCS_SOLVE) : VCS_SOLVE :=
  set_TPhMoles (<[ p := v ]> (TPhMoles st)) st.
Definition ds_set (i : nat) (v : double) (st : VCS_SOLVE) : VCS_SOLVE :=
  set_ds (<[ i := v ]> (ds st)) st.
Definition spStatus_set (i : nat) (v : Z) (st : VCS_SOLVE) : VCS_SOLVE :=
  set_spStatus (<[ i := v ]> (spStatus st)) st.

(** ** The reaction adjustment: [VCS_SOLVE::vcs_rxn_adj_cg] *)

(** Lines 137-147: the diagonal curvature [s] of reaction [irxn]. *)
Definition rxn_curvature (st : VCS_SOLVE) (irxn : nat) : double :=
  let kspec := ir st !!! irxn in
  let dnPhase_irxn := DnPhase st !!! irxn in
  let s := if (SSPhase st !!! kspec : bool) then 0.0
           else 1.0 / soln st !!! kspec in
  let s := for_loop (m_numComponents st) (fun j s =>
             if negb (SSPhase st !!! j)
             then s + SQUARE ((sc st !!! irxn) !!! j) / soln st !!! j
             else s) s in
  for_loop (NPhase st) (fun j s =>
    if negb (VPhaseList_SingleSpecies st !!! j) then
      if Qgtb (TPhMoles st !!! j) 0.0
      then s - SQUARE (dnPhase_irxn !!! j) / TPhMoles st !!! j
      else s
    else s) s.

(** Lines 165-173 and 177-185: one pass of either search loop.  The
    loop carries [(dss, k)]; [xx] is the bound that component [j] puts
    on the extent, and it replaces [dss] only when strictly smaller. *)
Definition bound_step_pos (st : VCS_SOLVE) (irxn j : nat)
    (acc : double * nat) : double * nat :=
  let '(dss, k) := acc in
  if Qgtb ((sc st !!! irxn) !!! j) 0.0 then
    let xx := soln st !!! j / (sc st !!! irxn) !!! j in
    if Qltb xx dss then (xx, j) else (dss, k)
  else (dss, k).

Definition bound_step_neg (st : VCS_SOLVE) (irxn j : nat)
    (acc : double * nat) : double * nat :=
  let '(dss, k) := acc in
  if Qltb ((sc st !!! irxn) !!! j) 0.0 then
    let xx := - soln st !!! j / (sc st !!! irxn) !!! j in
    if Qltb xx dss then (xx, j) else (dss, k)
  else (dss, k).

(** Lines 162-186: the extent [dss] applied in the degenerate branch
    and the species [k] to zero out.  [k] is the local declared at
    line 56: the second loop does not assign it before searching, so
    its value on entry matters. *)
Definition elimination_bound (st : VCS_SOLVE) (irxn k : nat) : double * nat :=
  let kspec := ir st !!! irxn in
  if Qgtb (dg st !!! irxn) 0.0 then
    let '(dss, k) := for_loop (m_numComponents st) (bound_step_pos st irxn)
                       (soln st !!! kspec, kspec) in
    (- dss, k)
  else
    for_loop (m_numComponents st) (bound_step_neg st irxn) (1.0e10, k).

(** [soln[i] += d; TPhMoles[PhaseID[i]] += d]: lines 196-197 and
    199-200. *)
Definition moles_add (i : nat) (d : double) (st : VCS_SOLVE) : VCS_SOLVE :=
  let st := soln_set i (soln st !!! i + d) st in
  TPhMoles_set (PhaseID st !!! i) (TPhMoles st !!! (PhaseID st !!! i) + d) st.

(** [soln[k] = 0.0; TPhMoles[PhaseID[k]] = 0.0]: lines 202-203. *)
Definition moles_zero (k : nat) (st : VCS_SOLVE) : VCS_SOLVE :=
  let st := soln_set k 0.0 st in
  TPhMoles_set (PhaseID st !!! k) 0.0 st.

(** Lines 196-203: the elimination update. *)
Definition eliminate (st : VCS_SOLVE) (irxn : nat) (dss : double) (k : nat)
    : VCS_SOLVE :=
  let kspec := ir st !!! irxn in
  let st := moles_add kspec dss st in
  let st := for_loop (m_numComponents st) (fun j st =>
              moles_add j (dss * (sc st !!! irxn) !!! j) st) st in
  moles_zero k st.

(** How one pass of the reaction loop ends: it falls through or
    [continue]s with the state and the local [k], or it [return]s. *)
Inductive iter_result : Type :=
  | Continue (st : VCS_SOLVE) (k : nat)
  | Return (soldel : Z) (st : VCS_SOLVE).

Section Solver.

(** Constants of [vcs_defs.h], which is not part of the sources at
    hand. *)
Variables VCS_SPECIES_MAJOR VCS_SPECIES_MINOR : Z.

(** Lines 78-219: the body of the loop over reactions.  The counter
    [m_numRxnMinorZeroed] is an [int]; it is an unbounded integer
    here. *)
Definition rxn_adj_iter (irxn k : nat) (st : VCS_SOLVE) : iter_result :=
  let kspec := ir st !!! irxn in
  if Qeq_bool (soln st !!! kspec) 0.0 && negb (SSPhase st !!! kspec) then
    if Qltb (dg st !!! irxn) (-1.0e-4) then
      let st := ds_set kspec 1.0e-10 st in
      let st := spStatus_set irxn VCS_SPECIES_MAJOR st in
      let st := set_numRxnMinorZeroed (m_numRxnMinorZeroed st - 1)%Z st in
      Continue st k
    else
      Continue (ds_set kspec 0.0 st) k
  else
    if Qle_bool (fabs (dg st !!! irxn)) (tolmaj2 st) then Continue st k
    else if (spStatus st !!! irxn <=? VCS_SPECIES_MINOR)%Z
            && Qgeb (dg st !!! irxn) 0.0 then Continue st k
    else
      let s := rxn_curvature st irxn in
      if Qneb s 0.0 then
        Continue (ds_set kspec (- dg st !!! irxn / s) st) k
      else
        let '(dss, k) := elimination_bound st irxn k in
        if Qneb dss 0.0 then
          let st := eliminate st irxn dss k in
          let soldel := if negb (Nat.eqb k kspec) then 2%Z else 1%Z in
          Return soldel st
        else Continue st k.

(** The loop over reactions [irxn, irxn+1, ..] with [n] passes left.
    [soldel] is still [0] when the loop runs out. *)
Fixpoint rxn_adj_loop (n irxn k : nat) (st : VCS_SOLVE) : Z * VCS_SOLVE :=
  match n with
  | O => (0%Z, st)
  | S n' =>
      match rxn_adj_iter irxn k st with
      | Continue st' k' => rxn_adj_loop n' (S irxn) k' st'
      | Return soldel st' => (soldel, st')
      end
  end.

(** [VCS_SOLVE::vcs_rxn_adj_cg]: the return code and the state left
    behind. *)
Definition vcs_rxn_adj_cg (st : VCS_SOLVE) : Z * VCS_SOLVE :=
  rxn_adj_loop (m_numRxnRdc st) 0 0 st.

(** Vocabulary for the properties.  [rxn_adj_passes n irxn k st] is the
    state and the local [k] after [n] passes of the loop that all fell
    through or [continue]d, and [None] when one of them [return]ed. *)
Fixpoint rxn_adj_passes (n irxn k : nat) (st : VCS_SOLVE)
    : option (nat * VCS_SOLVE) :=
  match n with
  | O => Some (k, st)
  | S n' =>
      match rxn_adj_iter irxn k st with
      | Continue st' k' => rxn_adj_passes n' (S irxn) k' st'
      | Return _ _ => None
      end
  end.

(** The tests of lines 81, 113 and 125 all fail, so that the pass
    reaches line 137 and computes the curvature. *)
Definition reaches_curvature (st : VCS_SOLVE) (irxn : nat) : bool :=
  let kspec := ir st !!! irxn in
  negb (Qeq_bool (soln st !!! kspec) 0.0 && negb (SSPhase st !!! kspec))
  && negb (Qle_bool (fabs (dg st !!! irxn)) (tolmaj2 st))
  && negb ((spStatus st !!! irxn <=? VCS_SPECIES_MINOR)%Z
           && Qgeb (dg st !!! irxn) 0.0).

(** The pass takes the degenerate branch: it reaches line 137 and finds
    [s == 0]. *)
Definition degenerate (st : VCS_SOLVE) (irxn : nat) : Prop :=
  reaches_curvature st irxn = true /\ rxn_curvature st irxn == 0.

End Solver.

(** ** The line search: [VCS_SOLVE::deltaG_Recalc_Rxn] and
    [VCS_SOLVE::vcs_line_search] *)

Section LineSearch.

(** [vcs_chemPotPhase(iphase, molNum, ac, mu_i)] is defined elsewhere
    in the solver.  It is a parameter here: it may consult the solver
    state and the mole numbers it is handed, and what it writes are the
    two arrays [ac] and [mu_i], returned as a pair. *)
Variable vcs_chemPotPhase :
  VCS_SOLVE -> nat -> list double -> list double -> list double ->
  list double * list double.

(** [vcs_dcopy(dest, src, n)] of [vcs_internal.h], likewise a
    parameter: the new contents of [dest]. *)
Variable vcs_dcopy : list double -> list double -> nat -> list double.

(** [VCS_SOLVE::deltaG_Recalc_Rxn]: the value returned and the arrays
    [ac] and [mu_i] as the call leaves them. *)
Definition deltaG_Recalc_Rxn (st : VCS_SOLVE) (irxn : nat)
    (molNum ac mu_i : list double) : double * (list double * list double) :=
  let kspec := (irxn + m_numComponents st)%nat in
  let pp_ptr := PhaseParticipation st !!! irxn in
  let '(ac, mu_i) :=
    for_loop (NPhase st) (fun iphase (bufs : list double * list double) =>
      if negb (Z.eqb (pp_ptr !!! iphase) 0)
      then vcs_chemPotPhase st iphase molNum (fst bufs) (snd bufs)
      else bufs) (ac, mu_i) in
  let deltaG := mu_i !!! kspec in
  let sc_irxn := sc st !!! irxn in
  let deltaG := for_loop (m_numComponents st) (fun k deltaG =>
                  deltaG + sc_irxn !!! k * mu_i !!! k) deltaG in
  (deltaG, (ac, mu_i)).

(** Lines 453-456 and 492-495: the trial mole numbers written to
    [molNum] (the member [wt]) for a step [dx]. *)
Definition trial_moles (st : VCS_SOLVE) (irxn : nat) (dx : double)
    (molNum : list double) : list double :=
  let kspec := ir st !!! irxn in
  let sc_irxn := sc st !!! irxn in
  let molNum := <[ kspec := soln st !!! kspec + dx ]> molNum in
  for_loop (m_numComponents st) (fun k molNum =>
    <[ k := soln st !!! k + sc_irxn !!! k * dx ]> molNum) molNum.

(** A call of [deltaG_Recalc_Rxn] on the trial point: [molNum] is
    [wt], [ac] is [ActCoeff] and the potentials go to
    [m_feSpecies_new]. *)
Definition deltaG_trial (st : VCS_SOLVE) (irxn : nat) : double * VCS_SOLVE :=
  let '(deltaG, (ac, mu)) :=
    deltaG_Recalc_Rxn st irxn (wt st) (ActCoeff st) (m_feSpecies_new st) in
  (deltaG, set_feSpecies_new mu (set_ActCoeff ac st)).

(** Lines 486-516: the halving loop with [n] passes left; it ends at
    [finalize] with the step [dx]. *)
Fixpoint line_search_halve (n : nat) (irxn : nat)
    (dx_orig deltaGOrig forig dx : double) (st : VCS_SOLVE)
    : double * VCS_SOLVE :=
  match n with
  | O => (dx, st)
  | S n' =>
      let dx := dx * 0.5 in
      let st := set_wt (trial_moles st irxn dx (wt st)) st in
      let '(deltaG, st) := deltaG_trial st irxn in
      if Qgtb (deltaG * deltaGOrig) 0.0 then (dx, st)
      else if Qltb (fabs deltaG / forig) (1.0 - 0.1 * dx / dx_orig) then
        if Qltb (deltaG * deltaGOrig) 0.0 then
          let slope := (deltaG - deltaGOrig) / dx in
          (- deltaGOrig / slope, st)
        else (dx, st)
      else line_search_halve n' irxn dx_orig deltaGOrig forig dx st
  end.

Definition MAXITS : nat := 10.

(** Lines 466-516: what is done once [deltaG1], the value at the full
    step, is known. *)
Definition line_search_decide (irxn : nat)
    (dx_orig deltaGOrig forig deltaG1 : double) (st : VCS_SOLVE)
    : double * VCS_SOLVE :=
  if Qgtb (deltaG1 * deltaGOrig) 0.0 then (dx_orig, st)
  else if Qltb (fabs deltaG1) (0.8 * forig) then
    if Qltb (deltaG1 * deltaGOrig) 0.0 then
      let slope := (deltaG1 - deltaGOrig) / dx_orig in
      (- deltaGOrig / slope, st)
    else (dx_orig, st)
  else line_search_halve MAXITS irxn dx_orig deltaGOrig forig dx_orig st.

(** Lines 424-449: the tests that end the search with a zero step
    before any trial point is evaluated. *)
Definition line_search_rejects (deltaGOrig dx_orig : double) : bool :=
  (if Qgtb deltaGOrig 0.0 then Qgtb dx_orig 0.0
   else if Qltb deltaGOrig 0.0 then Qltb dx_orig 0.0
   else Qeq_bool deltaGOrig 0.0)
  || Qeq_bool dx_orig 0.0.

(** Lines 421-423: the baseline [deltaGOrig], evaluated on [soln] with
    [ActCoeff0], the potentials going to [m_feSpecies_old]. *)
Definition deltaG_base (st : VCS_SOLVE) (irxn : nat) : double * VCS_SOLVE :=
  let '(deltaGOrig, (ac, mu)) :=
    deltaG_Recalc_Rxn st irxn (soln st) (ActCoeff0 st) (m_feSpecies_old st) in
  (deltaGOrig, set_feSpecies_old mu (set_ActCoeff0 ac st)).

(** Lines 451-459: the full-step trial point and [deltaG1]. *)
Definition deltaG_full_step (st : VCS_SOLVE) (irxn : nat) (dx_orig : double)
    : double * VCS_SOLVE :=
  let molNum := vcs_dcopy (wt st) (soln st) (m_numSpeciesRdc st) in
  let st := set_wt (trial_moles st irxn dx_orig molNum) st in
  deltaG_trial st irxn.

(** [VCS_SOLVE::vcs_line_search]: the step returned and the state left
    behind. *)
Definition vcs_line_search (st : VCS_SOLVE) (irxn : nat) (dx_orig : double)
    : double * VCS_SOLVE :=
  let '(deltaGOrig, st) := deltaG_base st irxn in
  let forig := fabs deltaGOrig + 1.0E-15 in
  if line_search_rejects deltaGOrig dx_orig then (0.0, st)
  else
    let '(deltaG1, st) := deltaG_full_step st irxn dx_orig in
    line_search_decide irxn dx_orig deltaGOrig forig deltaG1 st.

End LineSearch.

(** ** The claims of the specification, as the specification words them *)

(** The three cases of the corrected diagonal with the specification's
    factor two thirds. *)
Definition hessian_cases_two_thirds (st : VCS_SOLVE) (irxn : nat)
    (hessianDiag_Ideal : double) : Prop :=
  0 < hessianDiag_Ideal ->
  let h := vcs_Hessian_actCoeff_diag st irxn in
  exists diag, vcs_Hessian_diag_adj st irxn hessianDiag_Ideal = Some diag /\
    (0 <= h -> diag == hessianDiag_Ideal + h) /\
    (h < 0 -> Qabs h < (2#3) * hessianDiag_Ideal ->
       diag == hessianDiag_Ideal + h) /\
    (h < 0 -> ~ Qabs h < (2#3) * hessianDiag_Ideal ->
       diag == hessianDiag_Ideal - (2#3) * hessianDiag_Ideal).

(** The pass for reaction [irxn] gets past the test of line 81 and
    finds the reaction converged at line 113: it takes the
    skip-converged branch. *)
Definition skips_converged (st : VCS_SOLVE) (irxn : nat) : bool :=
  let kspec := ir st !!! irxn in
  negb (Qeq_bool (soln st !!! kspec) 0.0 && negb (SSPhase st !!! kspec))
  && Qle_bool (fabs (dg st !!! irxn)) (tolmaj2 st).

(** [f 0 + f 1 + .. + f (n-1)]. *)
Fixpoint sum_upto (f : nat -> Q) (n : nat) : Q :=
  match n with
  | O => 0
  | S n' => sum_upto f n' + f n'
  end.

(** The moles of species [i] counted for phase [p]: its mole number
    when [PhaseID[i]] is [p], nothing otherwise. *)
Definition moles_in_phase (ids : list nat) (moles : list Q) (p i : nat) : Q :=
  if Nat.eqb (ids !!! i) p then moles !!! i else 0.

(** The sum of the mole numbers of the member species of phase [p]. *)
Definition phase_moles (st : VCS_SOLVE) (p : nat) : Q :=
  sum_upto (moles_in_phase (PhaseID st) (soln st) p) (length (soln st)).

(** The invariant of the data model: the total of every phase is the
    sum of the mole numbers of its member species. *)
Definition mass_balance (st : VCS_SOLVE) : Prop :=
  forall p, (p < NPhase st)%nat -> TPhMoles st !!! p == phase_moles st p.

(** The elimination update of lines 196-203 on the two arrays it
    writes, [soln] and [TPhMoles], given [PhaseID] as [ids]:
    [add_moles] is the pair of statements [soln[i] += d;
    TPhMoles[PhaseID[i]] += d] and [zero_moles] the pair
    [soln[k] = 0.0; TPhMoles[PhaseID[k]] = 0.0]. *)
Definition add_moles (ids : list nat) (i : nat) (d : Q)
    (mt : list Q * list Q) : list Q * list Q :=
  (<[ i := fst mt !!! i + d ]> (fst mt),
   <[ ids !!! i := snd mt !!! (ids !!! i) + d ]> (snd mt)).

Definition zero_moles (ids : list nat) (k : nat)
    (mt : list Q * list Q) : list Q * list Q :=
  (<[ k := 0.0 ]> (fst mt), <[ ids !!! k := 0.0 ]> (snd mt)).

Definition eliminate_moles (ids : list nat) (sc_irxn : list Q)
    (nc kspec : nat) (dss : Q) (k : nat) (mt : list Q * list Q)
    : list Q * list Q :=
  zero_moles ids k
    (for_loop nc (fun j mt => add_moles ids j (dss * sc_irxn !!! j) mt)
       (add_moles ids kspec dss mt)).

(** [dss] is the minimum, over the components [j] with
    [sc[irxn][j] < 0], of [-soln[j] / sc[irxn][j]]: a lower bound of
    these quotients that one of them attains. *)
Definition min_over_consumed (st : VCS_SOLVE) (irxn : nat) (dss : Q) : Prop :=
  (forall j, (j < m_numComponents st)%nat -> (sc st !!! irxn) !!! j < 0 ->
     dss <= - soln st !!! j / (sc st !!! irxn) !!! j) /\
  (exists j, (j < m_numComponents st)%nat /\ (sc st !!! irxn) !!! j < 0 /\
     dss == - soln st !!! j / (sc st !!! irxn) !!! j).

(** ** Concrete solver states

    The runs on these states take [VCS_SPECIES_MAJOR] to be 1 and
    [VCS_SPECIES_MINOR] to be 0; every reaction has status 1. *)

(** One reaction, no component, one phase; the only entry of the
    activity-coefficient Jacobian is [a]. *)
Definition st_hessian (a : double) : VCS_SOLVE :=
  {| m_numRxnRdc := 1; m_numComponents := 0; m_numSpeciesRdc := 1;
     NPhase := 1; ir := [0%nat]; PhaseID := [0%nat]; SSPhase := [false];
     VPhaseList_SingleSpecies := [false]; PhaseParticipation := [[1%Z]];
     sc := [[]]; DnPhase := [[1.0]]; dLnActCoeffdMolNum := [[a]];
     tolmaj2 := 1.0e-8; dg := [0.0]; soln := [1.0]; TPhMoles := [1.0];
     ds := [0.0]; spStatus := [1%Z]; m_numRxnMinorZeroed := 0%Z;
     wt := [0.0]; ActCoeff0 := [1.0]; ActCoeff := [1.0];
     m_feSpecies_old := [0.0]; m_feSpecies_new := [0.0] |}.

(** Scenario C of the specification, with the mole number [n_k] of
    the noncomponent species and the residual [dg_k] left open.
    Species 0 is the component [c] with 3 moles, species 1 is the
    noncomponent species [k] of the only reaction, [sc[0][0] = -1], and
    each species is a single-species phase of its own.  The state
    carries a step [ds_k] for species 1 from an earlier round. *)
Definition st_two_solids (n_k dg_k ds_k : double) : VCS_SOLVE :=
  {| m_numRxnRdc := 1; m_numComponents := 1; m_numSpeciesRdc := 2;
     NPhase := 2; ir := [1%nat]; PhaseID := [0%nat; 1%nat];
     SSPhase := [true; true]; VPhaseList_SingleSpecies := [true; true];
     PhaseParticipation := [[1%Z; 1%Z]];
     sc := [[-1.0]]; DnPhase := [[-1.0; 1.0]];
     dLnActCoeffdMolNum := [[0.0; 0.0]; [0.0; 0.0]];
     tolmaj2 := 1.0e-8; dg := [dg_k]; soln := [3.0; n_k];
     TPhMoles := [3.0; n_k]; ds := [0.0; ds_k]; spStatus := [1%Z];
     m_numRxnMinorZeroed := 0%Z;
     wt := [0.0; 0.0]; ActCoeff0 := [1.0; 1.0]; ActCoeff := [1.0; 1.0];
     m_feSpecies_old := [0.0; 0.0]; m_feSpecies_new := [0.0; 0.0] |}.

(** Four species in three phases.  Species 0 (component [A], 1 mole)
    and species 3 (1 mole) share the multispecies phase 0; species 1
    (component [B], [n_B] moles) and species 2 (5 moles) are
    single-species phases 1 and 2.  Reaction 0 forms species 2 with
    [sc[0] = [0; sc_B]] and [dg[0] = -1]; reaction 1 forms species 3
    from [A] and is converged. *)
Definition st_three_phases (sc_B n_B : double) : VCS_SOLVE :=
  {| m_numRxnRdc := 2; m_numComponents := 2; m_numSpeciesRdc := 4;
     NPhase := 3; ir := [2%nat; 3%nat];
     PhaseID := [0%nat; 1%nat; 2%nat; 0%nat];
     SSPhase := [false; true; true; false];
     VPhaseList_SingleSpecies := [false; true; true];
     PhaseParticipation := [[0%Z; 1%Z; 1%Z]; [1%Z; 0%Z; 0%Z]];
     sc := [[0.0; sc_B]; [-1.0; 0.0]];
     DnPhase := [[0.0; sc_B; 1.0]; [0.0; 0.0; 0.0]];
     dLnActCoeffdMolNum := [[0.0; 0.0; 0.0; 0.0]; [0.0; 0.0; 0.0; 0.0];
                            [0.0; 0.0; 0.0; 0.0]; [0.0; 0.0; 0.0; 0.0]];
     tolmaj2 := 1.0e-8; dg := [-1.0; 0.0];
     soln := [1.0; n_B; 5.0; 1.0]; TPhMoles := [2.0; n_B; 5.0];
     ds := [0.0; 0.0; 0.0; 0.0]; spStatus := [1%Z; 1%Z];
     m_numRxnMinorZeroed := 0%Z;
     wt := [0.0; 0.0; 0.0; 0.0];
     ActCoeff0 := [1.0; 1.0; 1.0; 1.0]; ActCoeff := [1.0; 1.0; 1.0; 1.0];
     m_feSpecies_old := [0.0; 0.0; 0.0; 0.0];
     m_feSpecies_new := [0.0; 0.0; 0.0; 0.0] |}.

(** Stand-ins for the two functions the line search calls, for running
    it on [st_hessian]: a chemical potential of species 0 that is
    linear in its mole number, [1.5 * n - 0.5], and a copy of the first
    [n] entries. *)
Definition chemPot_linear (st : VCS_SOLVE) (iphase : nat)
    (molNum ac mu_i : list double) : list double * list double :=
  (ac, <[ 0%nat := 1.5 * molNum !!! 0%nat - 0.5 ]> mu_i).

Definition dcopy_prefix (dest src : list double) (n : nat) : list double :=
  take n src ++ drop n dest.

(** ** The Jacobian refresh: [VCS_SOLVE::vcs_CalcLnActCoeffJac] *)

Definition set_dLnActCoeffdMolNum (v : list (list double)) (st : VCS_SOLVE)
    : VCS_SOLVE :=
  mkVCS (m_numRxnRdc st) (m_numComponents st) (m_numSpeciesRdc st) (NPhase st)
        (ir st) (PhaseID st) (SSPhase st) (VPhaseList_SingleSpecies st)
        (PhaseParticipation st) (sc st) (DnPhase st) v
        (tolmaj2 st) (dg st) (soln st) (TPhMoles st) (ds st) (spStatus st)
        (m_numRxnMinorZeroed st) (wt st) (ActCoeff0 st) (ActCoeff st)
        (m_feSpecies_old st) (m_feSpecies_new st).

Section Jacobian.

(** The phase objects of [vcs_VolPhase.h] are not part of the sources
    at hand.  For phase [iphase],
    [Vphase->updateLnActCoeffJac(moleSpeciesVCS)] followed by
    [Vphase->sendToVCSLnActCoeffJac(..)] is a parameter: the matrix
    [dLnActCoeffdMolNum] as the two calls leave it. *)
Variable phase_LnActCoeffJac :
  nat -> list double -> list (list double) -> list (list double).

(** [VCS_SOLVE::vcs_CalcLnActCoeffJac]. *)
Definition vcs_CalcLnActCoeffJac (st : VCS_SOLVE)
    (moleSpeciesVCS : list double) : VCS_SOLVE :=
  for_loop (NPhase st) (fun iphase st =>
    if negb (VPhaseList_SingleSpecies st !!! iphase) then
      set_dLnActCoeffdMolNum
        (phase_LnActCoeffJac iphase moleSpeciesVCS (dLnActCoeffdMolNum st)) st
    else st) st.

End Jacobian.

(** ** More vocabulary for the properties *)

(** The change of species [x] per unit extent of reaction [irxn]: one
    for the species the reaction forms, [sc[irxn][x]] for a component,
    nothing for any other species. *)
Definition rxn_coefficient (st : VCS_SOLVE) (irxn x : nat) : Q :=
  if Nat.eqb x (ir st !!! irxn) then 1
  else if Nat.ltb x (m_numComponents st) then (sc st !!! irxn) !!! x
  else 0.

(** [st'] is [st] but for the five members the line search writes:
    [wt], [ActCoeff0], [ActCoeff], [m_feSpecies_old] and
    [m_feSpecies_new]. *)
Definition line_search_writes (st st' : VCS_SOLVE) : Prop :=
  exists w a0 a fo fn,
    st' = set_feSpecies_new fn
            (set_feSpecies_old fo
               (set_ActCoeff a (set_ActCoeff0 a0 (set_wt w st)))).

Section StepWritten.

Variable VCS_SPECIES_MINOR : Z.

(** What the pass for reaction [irxn] assigns to [ds[kspec]] when it
    does not return: the seed [1.0e-10] or [0.0] for a species without
    moles in a multispecies phase, the Newton step when the curvature
    is not zero, and no assignment ([None]) in the two skip branches
    and in the degenerate branch. *)
Definition step_written (st : VCS_SOLVE) (irxn : nat) : option Q :=
  let kspec := ir st !!! irxn in
  if Qeq_bool (soln st !!! kspec) 0.0 && negb (SSPhase st !!! kspec) then
    if Qltb (dg st !!! irxn) (-1.0e-4) then Some 1.0e-10 else Some 0.0
  else if Qle_bool (fabs (dg st !!! irxn)) (tolmaj2 st) then None
  else if (spStatus st !!! irxn <=? VCS_SPECIES_MINOR)%Z
          && Qgeb (dg st !!! irxn) 0.0 then None
  else
    let s := rxn_curvature st irxn in
    if Qneb s 0.0 then Some (- dg st !!! irxn / s) else None.

End StepWritten.

(** One multispecies phase with two species: component 0 with 2 moles
    and species 1 with 1 mole, formed from the component by the only
    reaction ([sc[0][0] = -1], no net change of the phase total), with
    residual [dg_k]. *)
Definition st_ideal_pair (dg_k : double) : VCS_SOLVE :=
  {| m_numRxnRdc := 1; m_numComponents := 1; m_numSpeciesRdc := 2;
     NPhase := 1; ir := [1%nat]; PhaseID := [0%nat; 0%nat];
     SSPhase := [false; false]; VPhaseList_SingleSpecies := [false];
     PhaseParticipation := [[1%Z]];
     sc := [[-1.0]]; DnPhase := [[0.0]];
     dLnActCoeffdMolNum := [[0.0; 0.0]; [0.0; 0.0]];
     tolmaj2 := 1.0e-8; dg := [dg_k]; soln := [2.0; 1.0];
     TPhMoles := [3.0]; ds := [0.0; 0.0]; spStatus := [1%Z];
     m_numRxnMinorZeroed := 0%Z;
     wt := [0.0; 0.0]; ActCoeff0 := [1.0; 1.0]; ActCoeff := [1.0; 1.0];
     m_feSpecies_old := [0.0; 0.0]; m_feSpecies_new := [0.0; 0.0] |}.

(** The phase of [st_ideal_pair] with species 1 without moles, status 0
    and a residual of [-1], below [-1.0e-4]: the only reaction revives
    the species.  One reaction is counted in [m_numRxnMinorZeroed]. *)
Definition st_dead_species : VCS_SOLVE :=
  {| m_numRxnRdc := 1; m_numComponents := 1; m_numSpeciesRdc := 2;
     NPhase := 1; ir := [1%nat]; PhaseID := [0%nat; 0%nat];
     SSPhase := [false; false]; VPhaseList_SingleSpecies := [false];
     PhaseParticipation := [[1%Z]];
     sc := [[-1.0]]; DnPhase := [[0.0]];
     dLnActCoeffdMolNum := [[0.0; 0.0]; [0.0; 0.0]];
     tolmaj2 := 1.0e-8; dg := [-1.0]; soln := [2.0; 0.0];
     TPhMoles := [2.0]; ds := [0.0; 0.0]; spStatus := [0%Z];
     m_numRxnMinorZeroed := 1%Z;
     wt := [0.0; 0.0]; ActCoeff0 := [1.0; 1.0]; ActCoeff := [1.0; 1.0];
     m_feSpecies_old := [0.0; 0.0]; m_feSpecies_new := [0.0; 0.0] |}.


(** A stand-in for the Jacobian of a phase: every entry of the matrix
    becomes [a]. *)
Definition jac_fill (a : double) (iphase : nat) (moles : list double)
    (J : list (list double)) : list (list double) :=
  map (map (fun _ => a)) J.

(** * The code on binary64 numbers

    The Hessian-diagonal corrector and the line search once more, this
    time on binary64 numbers: the primitive floating-point numbers of
    [PrimFloat], which are IEEE 754 double precision with rounding to
    nearest, ties to even, signed zeros, infinities and NaN.  This is
    the arithmetic of a C++ [double] when every operation is rounded to
    double.  A decimal constant is the nearest double, as a compiler
    takes it.  The definitions follow the source statement by
    statement, as the ones above do; only the numbers differ. *)

Module B64.

#[local] Open Scope float_scope.

#[global] Instance float_inhabited : Inhabited float := populate 0.

(** [fabs] of [math.h]. *)
Definition fabs (x : float) : float := PrimFloat.abs x.

(** The rational number a finite double stands for.  No number stands
    for an infinity or for NaN; the function gives zero there. *)
Definition rational (x : float) : Q :=
  match FloatOps.Prim2SF x with
  | SpecFloat.S754_finite s m e =>
      let v := match e with
               | Z0 => inject_Z (Zpos m)
               | Zpos p => inject_Z (Zpos m * Z.pow_pos 2 p)
               | Zneg p => (Zpos m # Pos.pow 2 p)%Q
               end in
      if s then (- v)%Q else v
  | _ => 0%Q
  end.

(** The members of [VCS_SOLVE] that [vcs_Hessian_actCoeff_diag],
    [deltaG_Recalc_Rxn] and [vcs_line_search] read or write. *)
Record VCS_SOLVE : Type := mkVCS {
  m_numComponents : nat;
  m_numSpeciesRdc : nat;
  NPhase : nat;
  ir : list nat;
  PhaseID : list nat;
  SSPhase : list bool;
  PhaseParticipation : list (list Z);
  sc : list (list float);
  dLnActCoeffdMolNum : list (list float);
  soln : list float;
  wt : list float;
  ActCoeff0 : list float;
  ActCoeff : list float;
  m_feSpecies_old : list float;
  m_feSpecies_new : list float
}.

Definition set_wt (v : list float) (st : VCS_SOLVE) : VCS_SOLVE :=
  mkVCS (m_numComponents st) (m_numSpeciesRdc st) (NPhase st) (ir st)
        (PhaseID st) (SSPhase st) (PhaseParticipation st) (sc st)
        (dLnActCoeffdMolNum st) (soln st) v (ActCoeff0 st) (ActCoeff st)
        (m_feSpecies_old st) (m_feSpecies_new st).

Definition set_ActCoeff0 (v : list float) (st : VCS_SOLVE) : VCS_SOLVE :=
  mkVCS (m_numComponents st) (m_numSpeciesRdc st) (NPhase st) (ir st)
        (PhaseID st) (SSPhase st) (PhaseParticipation st) (sc st)
        (dLnActCoeffdMolNum st) (soln st) (wt st) v (ActCoeff st)
        (m_feSpecies_old st) (m_feSpecies_new st).

Definition set_ActCoeff (v : list float) (st : VCS_SOLVE) : VCS_SOLVE :=
  mkVCS (m_numComponents st) (m_numSpeciesRdc st) (NPhase st) (ir st)
        (PhaseID st) (SSPhase st) (PhaseParticipation st) (sc st)
        (dLnActCoeffdMolNum st) (soln st) (wt st) (ActCoeff0 st) v
        (m_feSpecies_old st) (m_feSpecies_new st).

Definition set_feSpecies_old (v : list float) (st : VCS_SOLVE) : VCS_SOLVE :=
  mkVCS (m_numComponents st) (m_numSpeciesRdc st) (NPhase st) (ir st)
        (PhaseID st) (SSPhase st) (PhaseParticipation st) (sc st)
        (dLnActCoeffdMolNum st) (soln st) (wt st) (ActCoeff0 st) (ActCoeff st)
        v (m_feSpecies_new st).

Definition set_feSpecies_new (v : list float) (st : VCS_SOLVE) : VCS_SOLVE :=
  mkVCS (m_numComponents st) (m_numSpeciesRdc st) (NPhase st) (ir st)
        (PhaseID st) (SSPhase st) (PhaseParticipation st) (sc st)
        (dLnActCoeffdMolNum st) (soln st) (wt st) (ActCoeff0 st) (ActCoeff st)
        (m_feSpecies_old st) v.

(** [VCS_SOLVE::vcs_Hessian_actCoeff_diag]. *)
Definition vcs_Hessian_actCoeff_diag (st : VCS_SOLVE) (irxn : nat) : float :=
  let kspec := ir st !!! irxn in
  let kph := PhaseID st !!! kspec in
  let sc_irxn := sc st !!! irxn in
  let J := dLnActCoeffdMolNum st in
  let s := (J !!! kspec) !!! kspec in
  for_loop (m_numComponents st) (fun l s =>
    if negb (SSPhase st !!! l) then
      let s := for_loop (m_numComponents st) (fun k s =>
                 if Nat.eqb (PhaseID st !!! k) (PhaseID st !!! l)
                 then s + sc_irxn !!! k * sc_irxn !!! l * (J !!! k) !!! l
                 else s) s in
      if Nat.eqb kph (PhaseID st !!! l)
      then s + sc_irxn !!! l * ((J !!! kspec) !!! l + (J !!! l) !!! kspec)
      else s
    else s) s.

(** Lines 270-277: what is done to [diag] once [hessActCoef] is
    known. *)
Definition hessian_clamp (hessianDiag_Ideal hessActCoef : float) : float :=
  let diag := hessianDiag_Ideal in
  if PrimFloat.leb 0.0 hessActCoef then diag + hessActCoef
  else if PrimFloat.ltb (fabs hessActCoef) (0.6666 * hessianDiag_Ideal)
       then diag + hessActCoef
       else diag - 0.6666 * hessianDiag_Ideal.

(** [VCS_SOLVE::vcs_Hessian_diag_adj].  [None] is [exit(-1)]. *)
Definition vcs_Hessian_diag_adj (st : VCS_SOLVE) (irxn : nat)
    (hessianDiag_Ideal : float) : option float :=
  let hessActCoef := vcs_Hessian_actCoeff_diag st irxn in
  if PrimFloat.leb hessianDiag_Ideal 0.0 then None
  else Some (hessian_clamp hessianDiag_Ideal hessActCoef).

Section LineSearch.

(** [vcs_chemPotPhase] and [vcs_dcopy] are parameters, as above. *)
Variable vcs_chemPotPhase :
  VCS_SOLVE -> nat -> list float -> list float -> list float ->
  list float * list float.
Variable vcs_dcopy : list float -> list float -> nat -> list float.

(** [VCS_SOLVE::deltaG_Recalc_Rxn]. *)
Definition deltaG_Recalc_Rxn (st : VCS_SOLVE) (irxn : nat)
    (molNum ac mu_i : list float) : float * (list float * list float) :=
  let kspec := (irxn + m_numComponents st)%nat in
  let pp_ptr := PhaseParticipation st !!! irxn in
  let '(ac, mu_i) :=
    for_loop (NPhase st) (fun iphase (bufs : list float * list float) =>
      if negb (Z.eqb (pp_ptr !!! iphase) 0)
      then vcs_chemPotPhase st iphase molNum (fst bufs) (snd bufs)
      else bufs) (ac, mu_i) in
  let deltaG := mu_i !!! kspec in
  let sc_irxn := sc st !!! irxn in
  let deltaG := for_loop (m_numComponents st) (fun k deltaG =>
                  deltaG + sc_irxn !!! k * mu_i !!! k) deltaG in
  (deltaG, (ac, mu_i)).

(** Lines 453-456 and 492-495. *)
Definition trial_moles (st : VCS_SOLVE) (irxn : nat) (dx : float)
    (molNum : list float) : list float :=
  let kspec := ir st !!! irxn in
  let sc_irxn := sc st !!! irxn in
  let molNum := <[ kspec := soln st !!! kspec + dx ]> molNum in
  for_loop (m_numComponents st) (fun k molNum =>
    <[ k := soln st !!! k + sc_irxn !!! k * dx ]> molNum) molNum.

Definition deltaG_trial (st : VCS_SOLVE) (irxn : nat) : float * VCS_SOLVE :=
  let '(deltaG, (ac, mu)) :=
    deltaG_Recalc_Rxn st irxn (wt st) (ActCoeff st) (m_feSpecies_new st) in
  (deltaG, set_feSpecies_new mu (set_ActCoeff ac st)).

(** Lines 486-516: the halving loop with [n] passes left. *)
Fixpoint line_search_halve (n : nat) (irxn : nat)
    (dx_orig deltaGOrig forig dx : float) (st : VCS_SOLVE)
    : float * VCS_SOLVE :=
  match n with
  | O => (dx, st)
  | S n' =>
      let dx := dx * 0.5 in
      let st := set_wt (trial_moles st irxn dx (wt st)) st in
      let '(deltaG, st) := deltaG_trial st irxn in
      if PrimFloat.ltb 0.0 (deltaG * deltaGOrig) then (dx, st)
      else if PrimFloat.ltb (fabs deltaG / forig)
                 (1.0 - 0.1 * dx / dx_orig) then
        if PrimFloat.ltb (deltaG * deltaGOrig) 0.0 then
          let slope := (deltaG - deltaGOrig) / dx in
          (- deltaGOrig / slope, st)
        else (dx, st)
      else line_search_halve n' irxn dx_orig deltaGOrig forig dx st
  end.

Definition MAXITS : nat := 10.

(** Lines 466-516: what is done once [deltaG1] is known. *)
Definition line_search_decide (irxn : nat)
    (dx_orig deltaGOrig forig deltaG1 : float) (st : VCS_SOLVE)
    : float * VCS_SOLVE :=
  if PrimFloat.ltb 0.0 (deltaG1 * deltaGOrig) then (dx_orig, st)
  else if PrimFloat.ltb (fabs deltaG1) (0.8 * forig) then
    if PrimFloat.ltb (deltaG1 * deltaGOrig) 0.0 then
      let slope := (deltaG1 - deltaGOrig) / dx_orig in
      (- deltaGOrig / slope, st)
    else (dx_orig, st)
  else line_search_halve MAXITS irxn dx_orig deltaGOrig forig dx_orig st.

(** Lines 424-449: the early exits. *)
Definition line_search_rejects (deltaGOrig dx_orig : float) : bool :=
  (if PrimFloat.ltb 0.0 deltaGOrig then PrimFloat.ltb 0.0 dx_orig
   else if PrimFloat.ltb deltaGOrig 0.0 then PrimFloat.ltb dx_orig 0.0
   else PrimFloat.eqb deltaGOrig 0.0)
  || PrimFloat.eqb dx_orig 0.0.

(** Lines 421-423. *)
Definition deltaG_base (st : VCS_SOLVE) (irxn : nat) : float * VCS_SOLVE :=
  let '(deltaGOrig, (ac, mu)) :=
    deltaG_Recalc_Rxn st irxn (soln st) (ActCoeff0 st) (m_feSpecies_old st) in
  (deltaGOrig, set_feSpecies_old mu (set_ActCoeff0 ac st)).

(** Lines 451-459. *)
Definition deltaG_full_step (st : VCS_SOLVE) (irxn : nat) (dx_orig : float)
    : float * VCS_SOLVE :=
  let molNum := vcs_dcopy (wt st) (soln st) (m_numSpeciesRdc st) in
  let st := set_wt (trial_moles st irxn dx_orig molNum) st in
  deltaG_trial st irxn.

(** [VCS_SOLVE::vcs_line_search]. *)
Definition vcs_line_search (st : VCS_SOLVE) (irxn : nat) (dx_orig : float)
    : float * VCS_SOLVE :=
  let '(deltaGOrig, st) := deltaG_base st irxn in
  let forig := fabs deltaGOrig + 1.0E-15 in
  if line_search_rejects deltaGOrig dx_orig then (0.0, st)
  else
    let '(deltaG1, st) := deltaG_full_step st irxn dx_orig in
    line_search_decide irxn dx_orig deltaGOrig forig deltaG1 st.

(** C6 as the specification words it, for the search that gets past
    the early exits: when the magnitude of [deltaG1] is below 80% of the
    magnitude of [deltaGOrig] and the two differ in sign -- both read
    of the numbers the two doubles stand for -- the step returned is
    [-deltaGOrig / slope]. *)
Definition interpolates_as_specified (st : VCS_SOLVE) (irxn : nat)
    (dx_orig : float) : Prop :=
  let deltaGOrig := fst (deltaG_base st irxn) in
  let st0 := snd (deltaG_base st irxn) in
  let deltaG1 := fst (deltaG_full_step st0 irxn dx_orig) in
  line_search_rejects deltaGOrig dx_orig = false ->
  (Qabs (rational deltaG1) < 0.8 * Qabs (rational deltaGOrig))%Q ->
  ((rational deltaG1 < 0 /\ 0 < rational deltaGOrig) \/
   (rational deltaGOrig < 0 /\ 0 < rational deltaG1))%Q ->
  let slope := (deltaG1 - deltaGOrig) / dx_orig in
  fst (vcs_line_search st irxn dx_orig) = - deltaGOrig / slope.

(** Scenario D of C6 as the specification words it, for the search that
    gets past the early exits: for [deltaGOrig = 1.0] and
    [deltaG1 = -0.5] the step returned is [dx_orig / 1.5]. *)
Definition scenario_D_as_specified (st : VCS_SOLVE) (irxn : nat)
    (dx_orig : float) : Prop :=
  let deltaGOrig := fst (deltaG_base st irxn) in
  let st0 := snd (deltaG_base st irxn) in
  let deltaG1 := fst (deltaG_full_step st0 irxn dx_orig) in
  line_search_rejects deltaGOrig dx_orig = false ->
  deltaGOrig = 1.0 -> deltaG1 = -0.5 ->
  fst (vcs_line_search st irxn dx_orig) = dx_orig / 1.5.

End LineSearch.

(** One species in one multispecies phase, formed by the only
    reaction; there is no component.  The only entry of the
    activity-coefficient Jacobian is [a]; the species has one mole. *)
Definition st_hessian (a : float) : VCS_SOLVE :=
  {| m_numComponents := 0; m_numSpeciesRdc := 1; NPhase := 1;
     ir := [0%nat]; PhaseID := [0%nat]; SSPhase := [false];
     PhaseParticipation := [[1%Z]]; sc := [[]];
     dLnActCoeffdMolNum := [[a]]; soln := [1.0]; wt := [0.0];
     ActCoeff0 := [1.0]; ActCoeff := [1.0];
     m_feSpecies_old := [0.0]; m_feSpecies_new := [0.0] |}.

(** Stand-ins for the two functions the line search calls, for running
    it on [st_hessian]: a chemical potential of species 0 that is
    linear in its mole number [n], [g1] at [n = 0] and [g0] at [n = 1],
    and a copy of the first [n] entries. *)
Definition chemPot_between (g0 g1 : float) (st : VCS_SOLVE) (iphase : nat)
    (molNum ac mu_i : list float) : list float * list float :=
  (ac, <[ 0%nat := g0 * molNum !!! 0%nat + g1 * (1.0 - molNum !!! 0%nat) ]>
         mu_i).

Definition dcopy_prefix (dest src : list float) (n : nat) : list float :=
  take n src ++ drop n dest.

(** Another stand-in for [vcs_chemPotPhase]: the potential of species 0
    is [g0] at the mole number the state holds for it and [g1] at any
    other. *)
Definition chemPot_step (g0 g1 : float) (st : VCS_SOLVE) (iphase : nat)
    (molNum ac mu_i : list float) : list float * list float :=
  (ac, <[ 0%nat := if PrimFloat.eqb (molNum !!! 0%nat) (soln st !!! 0%nat)
                   then g0 else g1 ]> mu_i).

End B64.

(** * Properties *)

(** Closed comparisons and equations between computed values. *)
Ltac by_compute :=
  vm_compute; first [ reflexivity | discriminate | intro; discriminate ].

(** ** Comparisons *)

Lemma Qltb_true (x y : Q) : Qltb x y = true <-> x < y.
Proof.
  unfold Qltb. rewrite negb_true_iff. split.
  - intros H. apply Qnot_le_lt. intros Hle.
    apply Qle_bool_iff in Hle. congruence.
  - intros H. destruct (Qle_bool y x) eqn:E; [|reflexivity].
    apply Qle_bool_iff in E. lra.
Qed.

Lemma Qltb_false (x y : Q) : Qltb x y = false <-> y <= x.
Proof.
  unfold Qltb. rewrite negb_false_iff. apply Qle_bool_iff.
Qed.

Lemma Qgtb_true (x y : Q) : Qgtb x y = true <-> y < x.
Proof. apply Qltb_true. Qed.

Lemma Qgtb_false (x y : Q) : Qgtb x y = false <-> x <= y.
Proof. apply Qltb_false. Qed.

Lemma Qgeb_true (x y : Q) : Qgeb x y = true <-> y <= x.
Proof. apply Qle_bool_iff. Qed.

Lemma Qgeb_false (x y : Q) : Qgeb x y = false <-> x < y.
Proof.
  unfold Qgeb. split.
  - intros H. apply Qnot_le_lt. intros Hle.
    apply Qle_bool_iff in Hle. congruence.
  - intros H. destruct (Qle_bool y x) eqn:E; [|reflexivity].
    apply Qle_bool_iff in E. lra.
Qed.

Lemma Qle_bool_false (x y : Q) : Qle_bool x y = false <-> y < x.
Proof. apply (Qgeb_false y x). Qed.

Lemma Qneb_true (x y : Q) : Qneb x y = true <-> ~ x == y.
Proof.
  unfold Qneb. rewrite negb_true_iff. split.
  - intros H Heq. apply Qeq_bool_iff in Heq. congruence.
  - intros H. destruct (Qeq_bool x y) eqn:E; [|reflexivity].
    apply Qeq_bool_iff in E. contradiction.
Qed.

Lemma Qneb_false (x y : Q) : Qneb x y = false <-> x == y.
Proof.
  unfold Qneb. rewrite negb_false_iff. apply Qeq_bool_iff.
Qed.

(** ** The Hessian diagonal corrector *)

Lemma hessian_diag_adj_some (st : VCS_SOLVE) (irxn : nat) (ideal : Q) :
  0 < ideal ->
  vcs_Hessian_diag_adj st irxn ideal =
    Some (hessian_clamp ideal (vcs_Hessian_actCoeff_diag st irxn)).
Proof.
  intros Hpos. unfold vcs_Hessian_diag_adj.
  destruct (Qle_bool ideal 0.0) eqn:E; [|reflexivity].
  apply Qle_bool_iff in E. lra.
Qed.

(** C3, as the code has it.  For every ideal diagonal greater than
    zero, with [h] the activity-coefficient term of the reaction: the
    corrector returns [ideal + h] when [h >= 0]; it returns [ideal + h]
    when [h < 0] and [|h| < 0.6666 * ideal]; otherwise it returns
    [ideal - 0.6666 * ideal].  The factor is the decimal [0.6666], not
    two thirds. *)
Theorem hessian_diag_adj_cases (st : VCS_SOLVE) (irxn : nat)
    (hessianDiag_Ideal : double) :
  0 < hessianDiag_Ideal ->
  let h := vcs_Hessian_actCoeff_diag st irxn in
  (0 <= h ->
     vcs_Hessian_diag_adj st irxn hessianDiag_Ideal
     = Some (hessianDiag_Ideal + h)) /\
  (h < 0 -> Qabs h < 0.6666 * hessianDiag_Ideal ->
     vcs_Hessian_diag_adj st irxn hessianDiag_Ideal
     = Some (hessianDiag_Ideal + h)) /\
  (h < 0 -> ~ Qabs h < 0.6666 * hessianDiag_Ideal ->
     vcs_Hessian_diag_adj st irxn hessianDiag_Ideal
     = Some (hessianDiag_Ideal - 0.6666 * hessianDiag_Ideal)).
Proof.
  intros Hpos h. rewrite (hessian_diag_adj_some st irxn _ Hpos).
  fold h. unfold hessian_clamp, fabs.
  repeat split.
  - intros Hh.
    assert (E : Qgeb h 0.0 = true) by (apply Qgeb_true; lra).
    now rewrite E.
  - intros Hneg Habs.
    assert (E : Qgeb h 0.0 = false) by (apply Qgeb_false; lra).
    rewrite E. apply Qltb_true in Habs. now rewrite Habs.
  - intros Hneg Habs.
    assert (E : Qgeb h 0.0 = false) by (apply Qgeb_false; lra).
    rewrite E.
    destruct (Qltb (Qabs h) (0.6666 * hessianDiag_Ideal)) eqn:E';
      [|reflexivity].
    apply Qltb_true in E'. contradiction.
Qed.

Lemma hessian_diag_adj_cases_witness :
  0 < 2.0 /\
  vcs_Hessian_diag_adj (st_hessian (-3.0)) 0 2.0 = Some (2.0 - 0.6666 * 2.0)
  /\ vcs_Hessian_diag_adj (st_hessian 0.5) 0 2.0 = Some (2.0 + 0.5).
Proof.
  split; [reflexivity |]. split.
  - apply (proj2 (proj2 (hessian_diag_adj_cases (st_hessian (-3.0)) 0 2.0
                           eq_refl))); by_compute.
  - apply (proj1 (hessian_diag_adj_cases (st_hessian 0.5) 0 2.0 eq_refl)).
    by_compute.
Defined.

(** C3, as the specification words it, fails.  With ideal diagonal [3]
    and [h = -1.9999]: [|h| < (2/3) * 3 = 2], so the specification
    returns [3 + h = 1.0001]; the code compares [|h|] with
    [0.6666 * 3 = 1.9998], takes the last case and returns
    [3 - 1.9998 = 1.0002]. *)
Lemma hessian_cases_two_thirds_fails :
  ~ hessian_cases_two_thirds (st_hessian (-1.9999)) 0 3.0.
Proof.
  unfold hessian_cases_two_thirds. intros H.
  destruct (H eq_refl) as [diag [Hrun [_ [Hmid _]]]].
  vm_compute in Hrun. injection Hrun as <-.
  assert (Hneg : vcs_Hessian_actCoeff_diag (st_hessian (-1.9999)) 0 < 0)
    by reflexivity.
  assert (Habs : Qabs (vcs_Hessian_actCoeff_diag (st_hessian (-1.9999)) 0)
                 < (2#3) * 3.0) by reflexivity.
  specialize (Hmid Hneg Habs). vm_compute in Hmid. discriminate.
Qed.

(** C8.  The corrector ends the process exactly when the ideal diagonal
    is not greater than zero, and returns a value exactly when it is
    greater than zero: nothing else can happen. *)
Theorem hessian_diag_adj_aborts_iff (st : VCS_SOLVE) (irxn : nat)
    (hessianDiag_Ideal : double) :
  (vcs_Hessian_diag_adj st irxn hessianDiag_Ideal = None
     <-> hessianDiag_Ideal <= 0) /\
  (is_Some (vcs_Hessian_diag_adj st irxn hessianDiag_Ideal)
     <-> 0 < hessianDiag_Ideal).
Proof.
  unfold vcs_Hessian_diag_adj.
  destruct (Qle_bool hessianDiag_Ideal 0.0) eqn:E.
  - apply Qle_bool_iff in E. split; split; intros H.
    + lra.
    + reflexivity.
    + destruct H as [x Hx]. discriminate.
    + lra.
  - apply Qle_bool_false in E. split; split; intros H.
    + discriminate.
    + lra.
    + lra.
    + eexists; reflexivity.
Qed.

(** ** Counted loops *)

Lemma for_loop_0 {A : Type} (body : nat -> A -> A) (a : A) :
  for_loop 0 body a = a.
Proof. reflexivity. Qed.

Lemma for_loop_S {A : Type} (n : nat) (body : nat -> A -> A) (a : A) :
  for_loop (S n) body a = body n (for_loop n body a).
Proof.
  unfold for_loop. rewrite seq_S, fold_left_app. reflexivity.
Qed.

(** A loop invariant: it holds before the loop and every pass [j < n]
    keeps it. *)
Lemma for_loop_invariant {A : Type} (P : A -> Prop) (n : nat)
    (body : nat -> A -> A) (a : A) :
  P a ->
  (forall j x, (j < n)%nat -> P x -> P (body j x)) ->
  P (for_loop n body a).
Proof.
  intros Ha Hstep. induction n as [|n IH].
  - exact Ha.
  - rewrite for_loop_S. apply Hstep; [lia |].
    apply IH. intros j x Hj. apply Hstep. lia.
Qed.

Lemma elimination_bound_neg (st : VCS_SOLVE) (irxn k : nat) :
  dg st !!! irxn <= 0 ->
  elimination_bound st irxn k =
    for_loop (m_numComponents st) (bound_step_neg st irxn) (1.0e10, k).
Proof.
  intros Hdg. unfold elimination_bound.
  assert (E : Qgtb (dg st !!! irxn) 0.0 = false) by (apply Qgtb_false; lra).
  rewrite E. reflexivity.
Qed.

(** ** The elimination update *)

Lemma moles_add_eq (st : VCS_SOLVE) (i : nat) (d : Q) (mt : list Q * list Q) :
  moles_add i d (set_TPhMoles (snd mt) (set_soln (fst mt) st))
  = set_TPhMoles (snd (add_moles (PhaseID st) i d mt))
      (set_soln (fst (add_moles (PhaseID st) i d mt)) st).
Proof. reflexivity. Qed.

Lemma moles_zero_eq (st : VCS_SOLVE) (k : nat) (mt : list Q * list Q) :
  moles_zero k (set_TPhMoles (snd mt) (set_soln (fst mt) st))
  = set_TPhMoles (snd (zero_moles (PhaseID st) k mt))
      (set_soln (fst (zero_moles (PhaseID st) k mt)) st).
Proof. reflexivity. Qed.

Lemma moles_add_loop (st : VCS_SOLVE) (irxn : nat) (dss : Q) (n : nat)
    (mt : list Q * list Q) :
  for_loop n (fun j st => moles_add j (dss * (sc st !!! irxn) !!! j) st)
    (set_TPhMoles (snd mt) (set_soln (fst mt) st))
  = (let r := for_loop n (fun j mt =>
                add_moles (PhaseID st) j (dss * (sc st !!! irxn) !!! j) mt)
                mt in
     set_TPhMoles (snd r) (set_soln (fst r) st)).
Proof.
  induction n as [|n IH]; [reflexivity |].
  rewrite !for_loop_S, IH. cbn zeta. now rewrite moles_add_eq.
Qed.

(** The update writes [soln] and [TPhMoles] and nothing else. *)
Lemma eliminate_moles_eq (st : VCS_SOLVE) (irxn : nat) (dss : Q) (k : nat) :
  eliminate st irxn dss k =
    (let r := eliminate_moles (PhaseID st) (sc st !!! irxn)
                (m_numComponents st) (ir st !!! irxn) dss k
                (soln st, TPhMoles st) in
     set_TPhMoles (snd r) (set_soln (fst r) st)).
Proof.
  unfold eliminate, eliminate_moles. cbn zeta.
  assert (E : moles_add (ir st !!! irxn) dss st
              = set_TPhMoles
                  (snd (add_moles (PhaseID st) (ir st !!! irxn) dss
                          (soln st, TPhMoles st)))
                  (set_soln
                     (fst (add_moles (PhaseID st) (ir st !!! irxn) dss
                             (soln st, TPhMoles st))) st))
    by reflexivity.
  rewrite E.
  change (m_numComponents (set_TPhMoles _ (set_soln _ st)))
    with (m_numComponents st).
  rewrite moles_add_loop. cbn zeta. now rewrite moles_zero_eq.
Qed.

Lemma add_moles_length (ids : list nat) (i : nat) (d : Q)
    (mt : list Q * list Q) :
  length (fst (add_moles ids i d mt)) = length (fst mt) /\
  length (snd (add_moles ids i d mt)) = length (snd mt).
Proof. unfold add_moles. cbn. now rewrite !length_insert. Qed.

Lemma eliminate_moles_length (ids : list nat) (sc_irxn : list Q)
    (nc kspec : nat) (dss : Q) (k : nat) (mt : list Q * list Q) :
  length (fst (eliminate_moles ids sc_irxn nc kspec dss k mt))
  = length (fst mt).
Proof.
  unfold eliminate_moles, zero_moles. cbn [fst]. rewrite length_insert.
  apply (for_loop_invariant (fun r => length (fst r) = length (fst mt))).
  - apply add_moles_length.
  - intros j x _ Hx. rewrite <- Hx. apply add_moles_length.
Qed.

(** The species handed to the update as [k] ends with no moles. *)
Lemma eliminate_zeroes (st : VCS_SOLVE) (irxn : nat) (dss : Q) (k : nat) :
  (k < length (soln st))%nat ->
  soln (eliminate st irxn dss k) !!! k = 0.0.
Proof.
  intros Hk. rewrite eliminate_moles_eq. cbn zeta.
  cbn [soln set_TPhMoles set_soln].
  unfold eliminate_moles, zero_moles. cbn [fst].
  apply list_lookup_total_insert_eq.
  assert (H : length (fst (for_loop (m_numComponents st)
            (fun j mt => add_moles (PhaseID st) j
                           (dss * (sc st !!! irxn) !!! j) mt)
            (add_moles (PhaseID st) (ir st !!! irxn) dss
               (soln st, TPhMoles st)))) = length (soln st)).
  { apply (for_loop_invariant
             (fun r => length (fst r) = length (soln st))).
    - apply add_moles_length.
    - intros j x _ Hx. rewrite <- Hx. apply add_moles_length. }
  rewrite H. exact Hk.
Qed.

(** The component loop of the update, entry by entry: every component
    that exists gets its share once. *)
Lemma add_moles_loop_lookup (ids : list nat) (sc_irxn : list Q) (dss : Q)
    (n : nat) (mt : list Q * list Q) :
  let r := for_loop n
             (fun j mt => add_moles ids j (dss * sc_irxn !!! j) mt) mt in
  length (fst r) = length (fst mt) /\
  forall x,
    fst r !!! x
    = if Nat.ltb x n && Nat.ltb x (length (fst mt))
      then fst mt !!! x + dss * sc_irxn !!! x
      else fst mt !!! x.
Proof.
  induction n as [|n IH]; cbn zeta.
  - rewrite for_loop_0. split; [reflexivity |]. intros x. reflexivity.
  - rewrite for_loop_S. cbn zeta in IH. destruct IH as [Hlen Hval].
    unfold add_moles at 1 3. cbn [fst].
    split; [now rewrite length_insert |].
    intros x. rewrite list_lookup_total_insert, Hlen.
    destruct (decide (n = x /\ (n < length (fst mt))%nat)) as [[-> Hlt] | Hn].
    + rewrite Hval.
      replace (Nat.ltb x x) with false by (symmetry; apply Nat.ltb_irrefl).
      replace (Nat.ltb x (S x)) with true
        by (symmetry; apply Nat.ltb_lt; lia).
      replace (Nat.ltb x (length (fst mt))) with true
        by (symmetry; apply Nat.ltb_lt; lia).
      reflexivity.
    + rewrite Hval.
      destruct (Nat.ltb x (length (fst mt))) eqn:E1;
        [| now rewrite !andb_false_r].
      apply Nat.ltb_lt in E1. rewrite !andb_true_r.
      assert (Hne : n <> x)
        by (intros ->; apply Hn; split; [reflexivity | lia]).
      destruct (Nat.ltb x n) eqn:E2.
      * apply Nat.ltb_lt in E2.
        replace (Nat.ltb x (S n)) with true
          by (symmetry; apply Nat.ltb_lt; lia).
        reflexivity.
      * apply Nat.ltb_ge in E2.
        replace (Nat.ltb x (S n)) with false
          by (symmetry; apply Nat.ltb_ge; lia).
        reflexivity.
Qed.

(** The mole numbers after the update, entry by entry, when the species
    the reaction forms is not one of the components. *)
Lemma eliminate_soln_lookup (st : VCS_SOLVE) (irxn : nat) (dss : Q)
    (k x : nat) :
  (m_numComponents st <= ir st !!! irxn)%nat ->
  soln (eliminate st irxn dss k) !!! x
  = if Nat.eqb x k && Nat.ltb x (length (soln st)) then 0.0
    else if Nat.eqb x (ir st !!! irxn) && Nat.ltb x (length (soln st))
    then soln st !!! x + dss
    else if Nat.ltb x (m_numComponents st) && Nat.ltb x (length (soln st))
    then soln st !!! x + dss * (sc st !!! irxn) !!! x
    else soln st !!! x.
Proof.
  intros Hnc. rewrite eliminate_moles_eq. cbn zeta.
  cbn [soln set_TPhMoles set_soln].
  unfold eliminate_moles, zero_moles. cbn [fst].
  pose proof (add_moles_loop_lookup (PhaseID st) (sc st !!! irxn) dss
                (m_numComponents st)
                (add_moles (PhaseID st) (ir st !!! irxn) dss
                   (soln st, TPhMoles st))) as H.
  cbn zeta in H. destruct H as [Hlen Hval].
  assert (Hlen1 : length (fst (add_moles (PhaseID st) (ir st !!! irxn) dss
                                 (soln st, TPhMoles st)))
                  = length (soln st))
    by (unfold add_moles; cbn [fst]; apply length_insert).
  rewrite Hlen1 in Hlen, Hval.
  rewrite list_lookup_total_insert, Hlen.
  destruct (Nat.ltb x (length (soln st))) eqn:Ex.
  - apply Nat.ltb_lt in Ex. rewrite !andb_true_r.
    destruct (Nat.eqb x k) eqn:Ek.
    + apply Nat.eqb_eq in Ek. subst k.
      destruct (decide (x = x /\ (x < length (soln st))%nat)) as [_ | Hn];
        [reflexivity | exfalso; apply Hn; split; [reflexivity | exact Ex]].
    + apply Nat.eqb_neq in Ek.
      destruct (decide (k = x /\ (k < length (soln st))%nat)) as [[-> _] | _];
        [congruence |].
      rewrite Hval. unfold add_moles. cbn [fst].
      replace (Nat.ltb x (length (soln st))) with true
        by (symmetry; apply Nat.ltb_lt; exact Ex).
      rewrite andb_true_r.
      destruct (Nat.eqb x (ir st !!! irxn)) eqn:Es.
      * apply Nat.eqb_eq in Es. subst x.
        replace (Nat.ltb (ir st !!! irxn) (m_numComponents st)) with false
          by (symmetry; apply Nat.ltb_ge; exact Hnc).
        now rewrite list_lookup_total_insert_eq by exact Ex.
      * apply Nat.eqb_neq in Es.
        rewrite list_lookup_total_insert_ne by congruence.
        reflexivity.
  - apply Nat.ltb_ge in Ex. rewrite !andb_false_r.
    destruct (decide (k = x /\ (k < length (soln st))%nat)) as [[-> Hlt] | _];
      [lia |].
    rewrite Hval. unfold add_moles. cbn [fst].
    replace (Nat.ltb x (length (soln st))) with false
      by (symmetry; apply Nat.ltb_ge; exact Ex).
    rewrite andb_false_r.
    rewrite list_lookup_total_insert.
    destruct (decide (ir st !!! irxn = x
                      /\ (ir st !!! irxn < length (soln st))%nat))
      as [[<- Hlt] | _]; [lia | reflexivity].
Qed.

(** The component loop leaves the total of a phase that holds no
    component as it was, and no array changes its length. *)
Lemma add_moles_loop_phase (ids : list nat) (sc_irxn : list Q) (dss : Q)
    (n p : nat) (mt : list Q * list Q) :
  (forall j, (j < n)%nat -> ids !!! j <> p) ->
  snd (for_loop n (fun j mt => add_moles ids j (dss * sc_irxn !!! j) mt) mt)
    !!! p
  = snd mt !!! p.
Proof.
  intros Hp.
  apply (for_loop_invariant (fun r => snd r !!! p = snd mt !!! p));
    [reflexivity |].
  intros j r Hj Hr. unfold add_moles. cbn [snd].
  rewrite list_lookup_total_insert_ne by (apply Hp; exact Hj). exact Hr.
Qed.

Lemma add_moles_loop_length_snd (ids : list nat) (sc_irxn : list Q) (dss : Q)
    (n : nat) (mt : list Q * list Q) :
  length (snd (for_loop n
                 (fun j mt => add_moles ids j (dss * sc_irxn !!! j) mt) mt))
  = length (snd mt).
Proof.
  apply (for_loop_invariant (fun r => length (snd r) = length (snd mt)));
    [reflexivity |].
  intros j r _ Hr. rewrite <- Hr. apply add_moles_length.
Qed.

(** The phase totals after the update: the phase of the species zeroed
    out ends at [0.0], and the phase of the species the reaction forms,
    when it holds no component and is not the phase zeroed, has gained
    [dss]. *)
Lemma eliminate_TPhMoles_lookup (st : VCS_SOLVE) (irxn : nat) (dss : Q)
    (k : nat) :
  ((PhaseID st !!! k < length (TPhMoles st))%nat ->
   TPhMoles (eliminate st irxn dss k) !!! (PhaseID st !!! k) = 0.0) /\
  ((forall j, (j < m_numComponents st)%nat ->
      PhaseID st !!! j <> PhaseID st !!! (ir st !!! irxn)) ->
   PhaseID st !!! k <> PhaseID st !!! (ir st !!! irxn) ->
   (PhaseID st !!! (ir st !!! irxn) < length (TPhMoles st))%nat ->
   TPhMoles (eliminate st irxn dss k) !!! (PhaseID st !!! (ir st !!! irxn))
   = TPhMoles st !!! (PhaseID st !!! (ir st !!! irxn)) + dss).
Proof.
  rewrite eliminate_moles_eq. cbn zeta.
  cbn [TPhMoles set_TPhMoles set_soln].
  unfold eliminate_moles, zero_moles. cbn [snd]. split.
  - intros Hk. apply list_lookup_total_insert_eq.
    rewrite add_moles_loop_length_snd. unfold add_moles. cbn [snd].
    rewrite length_insert. exact Hk.
  - intros Hc Hne Hp.
    rewrite list_lookup_total_insert_ne by exact Hne.
    rewrite add_moles_loop_phase by exact Hc.
    unfold add_moles. cbn [snd].
    apply list_lookup_total_insert_eq. exact Hp.
Qed.

(** ** One pass of the reaction loop *)

Section RxnAdj.

Variables MAJOR MINOR : Z.

(** A pass that reaches line 137 either proposes the Newton step or
    enters the degenerate branch. *)
Lemma rxn_adj_iter_regular (irxn k : nat) (st : VCS_SOLVE) :
  reaches_curvature MINOR st irxn = true ->
  rxn_adj_iter MAJOR MINOR irxn k st =
    (let kspec := ir st !!! irxn in
     let s := rxn_curvature st irxn in
     if Qneb s 0.0 then Continue (ds_set kspec (- dg st !!! irxn / s) st) k
     else
       let '(dss, k) := elimination_bound st irxn k in
       if Qneb dss 0.0 then
         Return (if negb (Nat.eqb k kspec) then 2%Z else 1%Z)
                (eliminate st irxn dss k)
       else Continue st k).
Proof.
  unfold reaches_curvature, rxn_adj_iter. cbn zeta. intros H.
  apply andb_true_iff in H as [H H3]. apply andb_true_iff in H as [H1 H2].
  apply negb_true_iff in H1, H2, H3. rewrite H1, H2, H3. reflexivity.
Qed.

Lemma rxn_adj_iter_degenerate (irxn k : nat) (st : VCS_SOLVE) :
  degenerate MINOR st irxn ->
  rxn_adj_iter MAJOR MINOR irxn k st =
    (let kspec := ir st !!! irxn in
     let dss := fst (elimination_bound st irxn k) in
     let k' := snd (elimination_bound st irxn k) in
     if Qneb dss 0.0 then
       Return (if negb (Nat.eqb k' kspec) then 2%Z else 1%Z)
              (eliminate st irxn dss k')
     else Continue st k').
Proof.
  intros [Hr Hs]. rewrite (rxn_adj_iter_regular irxn k st Hr). cbn zeta.
  assert (E : Qneb (rxn_curvature st irxn) 0.0 = false)
    by (apply Qneb_false; lra).
  rewrite E. destruct (elimination_bound st irxn k) as [dss k']. reflexivity.
Qed.

(** A pass [return]s only from the degenerate branch. *)
Lemma rxn_adj_iter_return (irxn k : nat) (st : VCS_SOLVE) (soldel : Z)
    (st' : VCS_SOLVE) :
  rxn_adj_iter MAJOR MINOR irxn k st = Return soldel st' ->
  degenerate MINOR st irxn /\
  ~ fst (elimination_bound st irxn k) == 0 /\
  st' = eliminate st irxn (fst (elimination_bound st irxn k))
          (snd (elimination_bound st irxn k)) /\
  soldel = (if Nat.eqb (snd (elimination_bound st irxn k)) (ir st !!! irxn)
            then 1%Z else 2%Z).
Proof.
  intros H.
  destruct (reaches_curvature MINOR st irxn) eqn:Hr.
  - rewrite (rxn_adj_iter_regular irxn k st Hr) in H. cbn zeta in H.
    destruct (Qneb (rxn_curvature st irxn) 0.0) eqn:Hs; [discriminate |].
    apply Qneb_false in Hs.
    destruct (elimination_bound st irxn k) as [dss k'] eqn:Eb.
    cbn [fst snd].
    destruct (Qneb dss 0.0) eqn:Hd; [| discriminate].
    apply Qneb_true in Hd. injection H as <- <-.
    split; [split; [exact Hr | lra] |].
    split; [lra |]. split; [reflexivity |].
    now destruct (Nat.eqb k' (ir st !!! irxn)).
  - exfalso. unfold reaches_curvature, rxn_adj_iter in *. cbn zeta in *.
    destruct (Qeq_bool (soln st !!! (ir st !!! irxn)) 0.0
              && negb (SSPhase st !!! (ir st !!! irxn))).
    + destruct (Qltb (dg st !!! irxn) (-1.0e-4)); discriminate.
    + destruct (Qle_bool (fabs (dg st !!! irxn)) (tolmaj2 st));
        [discriminate |].
      destruct ((spStatus st !!! irxn <=? MINOR)%Z
                && Qgeb (dg st !!! irxn) 0.0); discriminate.
Qed.

(** ** The loop over reactions *)

Lemma rxn_adj_loop_passes (n m irxn k : nat) (st : VCS_SOLVE) (k' : nat)
    (st' : VCS_SOLVE) :
  rxn_adj_passes MAJOR MINOR n irxn k st = Some (k', st') ->
  rxn_adj_loop MAJOR MINOR (n + m) irxn k st
  = rxn_adj_loop MAJOR MINOR m (irxn + n) k' st'.
Proof.
  revert irxn k st. induction n as [|n IH]; intros irxn k st H.
  - injection H as <- <-. now rewrite Nat.add_0_r.
  - cbn in H |- *.
    destruct (rxn_adj_iter MAJOR MINOR irxn k st) as [st1 k1 | c st1];
      [| discriminate].
    rewrite (IH _ _ _ H). f_equal. lia.
Qed.

(** When pass [i] is reached and returns, the function returns what
    that pass returns, whatever reactions come after it. *)
Lemma rxn_adj_returns_at (st : VCS_SOLVE) (i k_i : nat) (st_i : VCS_SOLVE)
    (soldel : Z) (st' : VCS_SOLVE) :
  (i < m_numRxnRdc st)%nat ->
  rxn_adj_passes MAJOR MINOR i 0 0 st = Some (k_i, st_i) ->
  rxn_adj_iter MAJOR MINOR i k_i st_i = Return soldel st' ->
  vcs_rxn_adj_cg MAJOR MINOR st = (soldel, st').
Proof.
  intros Hi Hp Hr. unfold vcs_rxn_adj_cg.
  replace (m_numRxnRdc st) with (i + S (m_numRxnRdc st - S i))%nat by lia.
  rewrite (rxn_adj_loop_passes _ _ _ _ _ _ _ Hp). cbn. now rewrite Hr.
Qed.

Lemma rxn_adj_runs_out (st : VCS_SOLVE) (k : nat) (st' : VCS_SOLVE) :
  rxn_adj_passes MAJOR MINOR (m_numRxnRdc st) 0 0 st = Some (k, st') ->
  vcs_rxn_adj_cg MAJOR MINOR st = (0%Z, st').
Proof.
  intros Hp. unfold vcs_rxn_adj_cg.
  replace (m_numRxnRdc st) with (m_numRxnRdc st + 0)%nat at 1 by lia.
  now rewrite (rxn_adj_loop_passes _ _ _ _ _ _ _ Hp).
Qed.

(** C2.  When a pass is reached, takes the degenerate branch and finds
    [dss != 0], the function returns there, with the state the
    elimination update of that pass leaves and without running any
    later pass; the code returned is 1 when the species zeroed out is
    the species of the reaction and 2 when it is another one, in
    particular a component.  When every pass falls through, the function
    returns 0. *)
Theorem rxn_adj_return_code (st : VCS_SOLVE) :
  (forall i k_i st_i,
     (i < m_numRxnRdc st)%nat ->
     rxn_adj_passes MAJOR MINOR i 0 0 st = Some (k_i, st_i) ->
     degenerate MINOR st_i i ->
     let kspec := ir st_i !!! i in
     let dss := fst (elimination_bound st_i i k_i) in
     let k := snd (elimination_bound st_i i k_i) in
     ~ dss == 0 ->
     exists soldel,
       vcs_rxn_adj_cg MAJOR MINOR st = (soldel, eliminate st_i i dss k) /\
       (k = kspec -> soldel = 1%Z) /\
       (k <> kspec -> soldel = 2%Z) /\
       ((k < m_numComponents st_i)%nat ->
        (m_numComponents st_i <= kspec)%nat -> soldel = 2%Z)) /\
  (forall k st',
     rxn_adj_passes MAJOR MINOR (m_numRxnRdc st) 0 0 st = Some (k, st') ->
     vcs_rxn_adj_cg MAJOR MINOR st = (0%Z, st')).
Proof.
  split.
  - intros i k_i st_i Hi Hp Hdeg kspec dss k Hdss.
    pose proof (rxn_adj_iter_degenerate i k_i st_i Hdeg) as Hit.
    cbn zeta in Hit. fold dss k kspec in Hit.
    assert (E : Qneb dss 0.0 = true) by (apply Qneb_true; lra).
    rewrite E in Hit.
    eexists. split; [exact (rxn_adj_returns_at st i k_i st_i _ _ Hi Hp Hit) |].
    split; [| split].
    + intros ->. now rewrite Nat.eqb_refl.
    + intros Hne. apply Nat.eqb_neq in Hne. now rewrite Hne.
    + intros Hlt Hle.
      assert (Hne : k <> kspec) by lia.
      apply Nat.eqb_neq in Hne. now rewrite Hne.
  - apply rxn_adj_runs_out.
Qed.

(** C9.  When a pass takes the degenerate branch and finds [dss == 0],
    it leaves the whole state as it was -- no mole number, no phase
    total and no entry of [ds] is written -- it does not return, and the
    loop goes on with the next reaction. *)
Theorem rxn_adj_zero_bound_skips (irxn k : nat) (st : VCS_SOLVE) :
  degenerate MINOR st irxn ->
  fst (elimination_bound st irxn k) == 0 ->
  rxn_adj_iter MAJOR MINOR irxn k st
    = Continue st (snd (elimination_bound st irxn k)) /\
  forall n,
    rxn_adj_loop MAJOR MINOR (S n) irxn k st
    = rxn_adj_loop MAJOR MINOR n (S irxn)
        (snd (elimination_bound st irxn k)) st.
Proof.
  intros Hdeg Hdss.
  assert (Hit : rxn_adj_iter MAJOR MINOR irxn k st
                = Continue st (snd (elimination_bound st irxn k))).
  { rewrite (rxn_adj_iter_degenerate irxn k st Hdeg). cbn zeta.
    assert (E : Qneb (fst (elimination_bound st irxn k)) 0.0 = false)
      by (apply Qneb_false; lra).
    now rewrite E. }
  split; [exact Hit |].
  intros n. cbn. now rewrite Hit.
Qed.

End RxnAdj.

Lemma rxn_adj_return_code_witness :
  exists soldel,
    vcs_rxn_adj_cg 1 0 (st_two_solids 5.0 (-1.0) 0.0)
    = (soldel,
       eliminate (st_two_solids 5.0 (-1.0) 0.0) 0
         (fst (elimination_bound (st_two_solids 5.0 (-1.0) 0.0) 0 0))
         (snd (elimination_bound (st_two_solids 5.0 (-1.0) 0.0) 0 0))) /\
    soldel = 2%Z.
Proof.
  destruct (proj1 (rxn_adj_return_code 1 0 (st_two_solids 5.0 (-1.0) 0.0))
              0%nat 0%nat (st_two_solids 5.0 (-1.0) 0.0))
    as [soldel [Hrun [_ [Hcomp _]]]].
  - vm_compute. lia.
  - reflexivity.
  - split; by_compute.
  - by_compute.
  - exists soldel. split; [exact Hrun |]. apply Hcomp. by_compute.
Defined.

(** Scenario C of the specification: the bound from the component is
    3, species [k] goes from 5 to 8 moles, the component to 0, and the
    code returned is 2. *)
Example scenario_C :
  let r := vcs_rxn_adj_cg 1 0 (st_two_solids 5.0 (-1.0) 0.0) in
  fst r = 2%Z /\
  fst (elimination_bound (st_two_solids 5.0 (-1.0) 0.0) 0 0) == 3 /\
  soln (snd r) !!! 1%nat == 8 /\ soln (snd r) !!! 0%nat == 0 /\
  TPhMoles (snd r) !!! 1%nat == 8 /\ TPhMoles (snd r) !!! 0%nat == 0.
Proof. cbn zeta. repeat split; by_compute. Qed.

Lemma rxn_adj_zero_bound_skips_witness :
  rxn_adj_iter 1 0 0 0 (st_two_solids 0.0 1.0 0.0)
  = Continue (st_two_solids 0.0 1.0 0.0) 1.
Proof.
  apply (proj1 (rxn_adj_zero_bound_skips 1 0 0 0 (st_two_solids 0.0 1.0 0.0)
                  ltac:(split; by_compute) ltac:(by_compute))).
Defined.

(** C4 fails on the code.  In [st_three_phases] with [sc[0][1] = -1]
    and [2.0e10] moles of component 1, reaction 0 takes the degenerate
    branch with [dg[0] = -1 < 0].  The only component with a negative
    coefficient gives the quotient [-2.0e10 / -1 = 2.0e10], which is
    not below the value [1.0e10] that [dss] is given at line 176.  The
    search ends with [dss = 1.0e10], which is not the minimum of the
    quotients, and with [k = 0], the value [k] was declared with at
    line 56: no species was recorded. *)
Lemma elimination_bound_not_minimum :
  degenerate 0 (st_three_phases (-1.0) 2.0e10) 0 /\
  dg (st_three_phases (-1.0) 2.0e10) !!! 0%nat < 0 /\
  - soln (st_three_phases (-1.0) 2.0e10) !!! 1%nat
    / (sc (st_three_phases (-1.0) 2.0e10) !!! 0%nat) !!! 1%nat == 2.0e10 /\
  elimination_bound (st_three_phases (-1.0) 2.0e10) 0 0 = (1.0e10, 0%nat) /\
  ~ min_over_consumed (st_three_phases (-1.0) 2.0e10) 0
      (fst (elimination_bound (st_three_phases (-1.0) 2.0e10) 0 0)).
Proof.
  split; [split; by_compute |]. split; [by_compute |].
  split; [by_compute |]. split; [reflexivity |].
  intros [_ [j [Hj [Hsc Heq]]]].
  destruct j as [|[|j]].
  - vm_compute in Hsc. discriminate.
  - vm_compute in Heq. discriminate.
  - vm_compute in Hj. lia.
Qed.

(** ** What the passes that do not return write *)

Lemma VCS_SOLVE_eta (st : VCS_SOLVE) :
  st = set_numRxnMinorZeroed (m_numRxnMinorZeroed st)
         (set_spStatus (spStatus st) (set_ds (ds st) st)).
Proof. destruct st. reflexivity. Qed.

Section Frame.

Variables MAJOR MINOR : Z.

(** A pass that does not return writes at most [ds[kspec]],
    [spStatus[irxn]] and the counter [m_numRxnMinorZeroed]. *)
Lemma rxn_adj_iter_continue (irxn k : nat) (st st' : VCS_SOLVE) (k' : nat) :
  rxn_adj_iter MAJOR MINOR irxn k st = Continue st' k' ->
  exists cnt sp d,
    st' = set_numRxnMinorZeroed cnt (set_spStatus sp (set_ds d st)) /\
    (d = ds st \/ exists v, d = <[ ir st !!! irxn := v ]> (ds st)).
Proof.
  unfold rxn_adj_iter. cbn zeta. intros H.
  destruct (Qeq_bool (soln st !!! (ir st !!! irxn)) 0.0
            && negb (SSPhase st !!! (ir st !!! irxn))).
  - destruct (Qltb (dg st !!! irxn) (-1.0e-4)); injection H as <- <-.
    + eexists _, _, _. split; [reflexivity |]. right. eexists. reflexivity.
    + exists (m_numRxnMinorZeroed st), (spStatus st),
        (<[ ir st !!! irxn := 0.0 ]> (ds st)).
      split; [| right; eexists; reflexivity].
      destruct st; reflexivity.
  - destruct (Qle_bool (fabs (dg st !!! irxn)) (tolmaj2 st)).
    { injection H as <- <-.
      exists (m_numRxnMinorZeroed st), (spStatus st), (ds st).
      split; [apply VCS_SOLVE_eta | now left]. }
    destruct ((spStatus st !!! irxn <=? MINOR)%Z && Qgeb (dg st !!! irxn) 0.0).
    { injection H as <- <-.
      exists (m_numRxnMinorZeroed st), (spStatus st), (ds st).
      split; [apply VCS_SOLVE_eta | now left]. }
    destruct (Qneb (rxn_curvature st irxn) 0.0).
    { injection H as <- <-.
      exists (m_numRxnMinorZeroed st), (spStatus st),
        (<[ ir st !!! irxn := - dg st !!! irxn / rxn_curvature st irxn ]>
           (ds st)).
      split; [| right; eexists; reflexivity].
      destruct st; reflexivity. }
    destruct (elimination_bound st irxn k) as [dss k1].
    destruct (Qneb dss 0.0); [discriminate |].
    injection H as <- <-.
    exists (m_numRxnMinorZeroed st), (spStatus st), (ds st).
    split; [apply VCS_SOLVE_eta | now left].
Qed.

(** So do [n] passes in a row; the entries of [ds] of species that none
    of these reactions forms are as before. *)
Lemma rxn_adj_passes_frame (n irxn k : nat) (st : VCS_SOLVE) (k' : nat)
    (st' : VCS_SOLVE) :
  rxn_adj_passes MAJOR MINOR n irxn k st = Some (k', st') ->
  exists cnt sp d,
    st' = set_numRxnMinorZeroed cnt (set_spStatus sp (set_ds d st)) /\
    forall x, (forall j, (irxn <= j < irxn + n)%nat -> ir st !!! j <> x) ->
      d !!! x = ds st !!! x.
Proof.
  revert irxn k st. induction n as [|n IH]; intros irxn k st H.
  - injection H as <- <-.
    exists (m_numRxnMinorZeroed st), (spStatus st), (ds st).
    split; [apply VCS_SOLVE_eta | reflexivity].
  - cbn in H.
    destruct (rxn_adj_iter MAJOR MINOR irxn k st) as [st1 k1 | c st1] eqn:Hit;
      [| discriminate].
    apply rxn_adj_iter_continue in Hit as [cnt [sp [d [-> Hd]]]].
    apply IH in H as [cnt' [sp' [d' [-> Hd']]]].
    exists cnt', sp', d'. split; [reflexivity |].
    intros x Hx. cbn [ir ds set_numRxnMinorZeroed set_spStatus set_ds] in Hd'.
    rewrite Hd' by (intros j Hj; apply Hx; lia).
    destruct Hd as [-> | [v ->]]; [reflexivity |].
    apply list_lookup_total_insert_ne. apply Hx. lia.
Qed.

End Frame.

(** C5 fails on the code.  In [st_three_phases] with [sc[0][1] = -1]
    and [2.0e10] moles of component 1 the phase totals are right on
    entry.  Reaction 0 takes the degenerate branch and ends its search
    with [dss = 1.0e10] and [k = 0], the value [k] was declared with:
    the function returns 2 after the update for species 0.  Species 0
    takes no part in reaction 0 ([sc[0][0] = 0]); the update sets
    [soln[0]] and the total of its phase 0 to zero.  Species 3, with one
    mole, is in phase 0 as well, so the total of phase 0 is no longer
    the sum over its members. *)
Lemma elimination_breaks_mass_balance :
  mass_balance (st_three_phases (-1.0) 2.0e10) /\
  fst (vcs_rxn_adj_cg 1 0 (st_three_phases (-1.0) 2.0e10)) = 2%Z /\
  ~ mass_balance (snd (vcs_rxn_adj_cg 1 0 (st_three_phases (-1.0) 2.0e10))) /\
  vcs_rxn_adj_cg 1 0 (st_three_phases (-1.0) 2.0e10)
    = (2%Z, eliminate (st_three_phases (-1.0) 2.0e10) 0 1.0e10 0) /\
  (sc (st_three_phases (-1.0) 2.0e10) !!! 0%nat) !!! 0%nat == 0 /\
  soln (snd (vcs_rxn_adj_cg 1 0 (st_three_phases (-1.0) 2.0e10))) !!! 0%nat
    == 0 /\
  soln (snd (vcs_rxn_adj_cg 1 0 (st_three_phases (-1.0) 2.0e10))) !!! 3%nat
    == 1 /\
  TPhMoles (snd (vcs_rxn_adj_cg 1 0 (st_three_phases (-1.0) 2.0e10)))
    !!! 0%nat == 0 /\
  phase_moles (snd (vcs_rxn_adj_cg 1 0 (st_three_phases (-1.0) 2.0e10))) 0
    == 1.
Proof.
  split; [| split; [| split]].
  - intros p Hp. destruct p as [|[|[|p]]];
      [by_compute | by_compute | by_compute |].
    vm_compute in Hp. lia.
  - reflexivity.
  - intros H. specialize (H 0%nat ltac:(vm_compute; lia)).
    vm_compute in H. discriminate.
  - repeat split; by_compute.
Qed.

(** ** A search that finds no bound *)

Section Unbounded.

Variables MAJOR MINOR : Z.

Lemma elimination_bound_unbounded (st : VCS_SOLVE) (irxn k : nat) :
  dg st !!! irxn < 0 ->
  (forall j, (j < m_numComponents st)%nat -> ~ (sc st !!! irxn) !!! j < 0) ->
  elimination_bound st irxn k = (1.0e10, k).
Proof.
  intros Hdg Hsc. rewrite elimination_bound_neg by lra.
  apply (for_loop_invariant (fun r => r = (1.0e10, k))); [reflexivity |].
  intros j r Hj ->. unfold bound_step_neg.
  destruct (Qltb ((sc st !!! irxn) !!! j) 0.0) eqn:E; [| reflexivity].
  apply Qltb_true in E. exfalso. apply (Hsc j Hj). lra.
Qed.

(** C10.  When a pass is reached, takes the degenerate branch with
    [dg[irxn] < 0] and no component [j] has [sc[irxn][j] < 0], then
    [dss] keeps its starting value [1.0e10] and [k] keeps the value
    [k_i] it had when the pass began, which is 0 in the first pass.  The
    function returns there: the update is applied with extent [1.0e10],
    and the species it zeroes out is [k_i].  The step is applied to the
    mole numbers and phase totals the function was entered with: the
    species the reaction forms (when it is not a component and not
    [k_i]) gains [1.0e10] moles, every component other than [k_i]
    gains [1.0e10 * sc[irxn][j]], the phase of the species formed gains
    [1.0e10] when it holds no component and is not the phase of [k_i],
    and the phase of [k_i] ends at [0.0]. *)
Theorem rxn_adj_unbounded_extent (st : VCS_SOLVE) (i k_i : nat)
    (st_i : VCS_SOLVE) :
  (i < m_numRxnRdc st)%nat ->
  rxn_adj_passes MAJOR MINOR i 0 0 st = Some (k_i, st_i) ->
  degenerate MINOR st_i i ->
  dg st_i !!! i < 0 ->
  (forall j, (j < m_numComponents st_i)%nat ->
     ~ (sc st_i !!! i) !!! j < 0) ->
  elimination_bound st_i i k_i = (1.0e10, k_i) /\
  vcs_rxn_adj_cg MAJOR MINOR st
    = (if Nat.eqb k_i (ir st_i !!! i) then 1%Z else 2%Z,
       eliminate st_i i 1.0e10 k_i) /\
  ((k_i < length (soln st_i))%nat ->
     soln (eliminate st_i i 1.0e10 k_i) !!! k_i = 0.0) /\
  (i = 0%nat -> k_i = 0%nat) /\
  (soln st_i = soln st /\ TPhMoles st_i = TPhMoles st) /\
  ((m_numComponents st_i <= ir st_i !!! i)%nat ->
   (ir st_i !!! i < length (soln st_i))%nat ->
   k_i <> ir st_i !!! i ->
   soln (eliminate st_i i 1.0e10 k_i) !!! (ir st_i !!! i)
   = soln st_i !!! (ir st_i !!! i) + 1.0e10) /\
  ((m_numComponents st_i <= ir st_i !!! i)%nat ->
   forall j, (j < m_numComponents st_i)%nat ->
     (j < length (soln st_i))%nat -> j <> k_i ->
     soln (eliminate st_i i 1.0e10 k_i) !!! j
     = soln st_i !!! j + 1.0e10 * (sc st_i !!! i) !!! j) /\
  ((forall j, (j < m_numComponents st_i)%nat ->
      PhaseID st_i !!! j <> PhaseID st_i !!! (ir st_i !!! i)) ->
   PhaseID st_i !!! k_i <> PhaseID st_i !!! (ir st_i !!! i) ->
   (PhaseID st_i !!! (ir st_i !!! i) < length (TPhMoles st_i))%nat ->
   TPhMoles (eliminate st_i i 1.0e10 k_i) !!! (PhaseID st_i !!! (ir st_i !!! i))
   = TPhMoles st_i !!! (PhaseID st_i !!! (ir st_i !!! i)) + 1.0e10) /\
  ((PhaseID st_i !!! k_i < length (TPhMoles st_i))%nat ->
   TPhMoles (eliminate st_i i 1.0e10 k_i) !!! (PhaseID st_i !!! k_i) = 0.0).
Proof.
  intros Hi Hp Hdeg Hdg Hsc.
  pose proof (elimination_bound_unbounded st_i i k_i Hdg Hsc) as Hb.
  split; [exact Hb |]. split; [| split; [| split; [| split]]].
  - apply (rxn_adj_returns_at MAJOR MINOR st i k_i st_i _ _ Hi Hp).
    rewrite (rxn_adj_iter_degenerate MAJOR MINOR i k_i st_i Hdeg).
    cbn zeta. rewrite Hb. cbn [fst snd].
    replace (Qneb 1.0e10 0.0) with true by reflexivity.
    now destruct (Nat.eqb k_i (ir st_i !!! i)).
  - apply eliminate_zeroes.
  - intros ->. cbn in Hp. now injection Hp as <- _.
  - destruct (rxn_adj_passes_frame _ _ _ _ _ _ _ _ Hp) as [cnt [sp [d [-> _]]]].
    split; reflexivity.
  - split; [| split; [| split]].
    + intros Hnc Hks Hne.
      rewrite eliminate_soln_lookup by exact Hnc.
      replace (Nat.eqb (ir st_i !!! i) k_i) with false
        by (symmetry; apply Nat.eqb_neq; congruence).
      rewrite Nat.eqb_refl.
      replace (Nat.ltb (ir st_i !!! i) (length (soln st_i))) with true
        by (symmetry; apply Nat.ltb_lt; exact Hks).
      reflexivity.
    + intros Hnc j Hj Hlen Hne.
      rewrite eliminate_soln_lookup by exact Hnc.
      replace (Nat.eqb j k_i) with false
        by (symmetry; apply Nat.eqb_neq; exact Hne).
      replace (Nat.eqb j (ir st_i !!! i)) with false
        by (symmetry; apply Nat.eqb_neq; lia).
      replace (Nat.ltb j (m_numComponents st_i)) with true
        by (symmetry; apply Nat.ltb_lt; exact Hj).
      replace (Nat.ltb j (length (soln st_i))) with true
        by (symmetry; apply Nat.ltb_lt; exact Hlen).
      reflexivity.
    + apply (proj2 (eliminate_TPhMoles_lookup st_i i 1.0e10 k_i)).
    + apply (proj1 (eliminate_TPhMoles_lookup st_i i 1.0e10 k_i)).
Qed.

End Unbounded.

Lemma rxn_adj_unbounded_extent_witness :
  elimination_bound (st_three_phases 1.0 2.0) 0 0 = (1.0e10, 0%nat) /\
  vcs_rxn_adj_cg 1 0 (st_three_phases 1.0 2.0)
    = (2%Z, eliminate (st_three_phases 1.0 2.0) 0 1.0e10 0) /\
  soln (eliminate (st_three_phases 1.0 2.0) 0 1.0e10 0) !!! 0%nat = 0.0 /\
  soln (eliminate (st_three_phases 1.0 2.0) 0 1.0e10 0) !!! 2%nat
    = 5.0 + 1.0e10 /\
  soln (eliminate (st_three_phases 1.0 2.0) 0 1.0e10 0) !!! 1%nat
    = 2.0 + 1.0e10 * 1.0 /\
  TPhMoles (eliminate (st_three_phases 1.0 2.0) 0 1.0e10 0) !!! 2%nat
    = 5.0 + 1.0e10 /\
  TPhMoles (eliminate (st_three_phases 1.0 2.0) 0 1.0e10 0) !!! 0%nat = 0.0.
Proof.
  destruct (rxn_adj_unbounded_extent 1 0 (st_three_phases 1.0 2.0) 0 0
              (st_three_phases 1.0 2.0))
    as [Hb [Hrun [Hzero [_ [_ [Hks [Hcomp [Hph Hpz]]]]]]]].
  - vm_compute. lia.
  - reflexivity.
  - split; by_compute.
  - by_compute.
  - intros j Hj. destruct j as [|[|j]]; [by_compute | by_compute |].
    vm_compute in Hj. lia.
  - split; [exact Hb |]. split; [exact Hrun |].
    split; [apply Hzero; vm_compute; lia |].
    split; [apply Hks; [vm_compute; lia | vm_compute; lia | discriminate] |].
    split; [apply (Hcomp ltac:(vm_compute; lia) 1%nat);
            [vm_compute; lia | vm_compute; lia | discriminate] |].
    split; [| apply Hpz; vm_compute; lia].
    apply Hph; [| discriminate | vm_compute; lia].
    intros j Hj. destruct j as [|[|j]];
      [discriminate | discriminate | vm_compute in Hj; lia].
Defined.

(** ** The skip-converged branch *)

Section Converged.

Variables MAJOR MINOR : Z.

Lemma rxn_adj_iter_skips (irxn k : nat) (st : VCS_SOLVE) :
  skips_converged st irxn = true ->
  rxn_adj_iter MAJOR MINOR irxn k st = Continue st k.
Proof.
  unfold skips_converged, rxn_adj_iter. cbn zeta. intros H.
  apply andb_true_iff in H as [H1 H2]. apply negb_true_iff in H1.
  now rewrite H1, H2.
Qed.

(** The loop, from any pass on, leaves alone the entry of [ds] of a
    species [x] when the only reaction that forms [x] is converged; it
    never writes the data that decide this. *)
Lemma rxn_adj_loop_keeps_step (n irxn0 k : nat) (st : VCS_SOLVE) (i : nat) :
  (forall j, (irxn0 <= j < irxn0 + n)%nat -> j <> i ->
     ir st !!! j <> ir st !!! i) ->
  skips_converged st i = true ->
  let st' := snd (rxn_adj_loop MAJOR MINOR n irxn0 k st) in
  ds st' !!! (ir st !!! i) = ds st !!! (ir st !!! i) /\
  ir st' = ir st /\ dg st' = dg st /\ tolmaj2 st' = tolmaj2 st /\
  SSPhase st' = SSPhase st /\ m_numRxnRdc st' = m_numRxnRdc st.
Proof.
  revert irxn0 k st. induction n as [|n IH]; intros irxn0 k st Hir Hconv.
  - cbn. repeat split.
  - cbn zeta. cbn [rxn_adj_loop].
    destruct (Nat.eq_dec irxn0 i) as [-> | Hne].
    + rewrite (rxn_adj_iter_skips i k st Hconv).
      apply IH; [| exact Hconv]. intros j Hj. apply Hir. lia.
    + destruct (rxn_adj_iter MAJOR MINOR irxn0 k st)
        as [st1 k1 | c st1] eqn:Hit.
      * apply rxn_adj_iter_continue in Hit as [cnt [sp [d [-> Hd]]]].
        specialize (IH (S irxn0) k1
                      (set_numRxnMinorZeroed cnt
                         (set_spStatus sp (set_ds d st)))).
        cbn zeta in IH.
        cbn [ir dg tolmaj2 SSPhase m_numRxnRdc ds
             set_numRxnMinorZeroed set_spStatus set_ds] in IH.
        destruct IH as [Hds Hrest].
        { intros j Hj. apply Hir. lia. }
        { exact Hconv. }
        split; [| exact Hrest]. rewrite Hds.
        destruct Hd as [-> | [v ->]]; [reflexivity |].
        apply list_lookup_total_insert_ne. apply Hir; [lia | exact Hne].
      * apply rxn_adj_iter_return in Hit as [_ [_ [-> _]]].
        cbn [snd]. rewrite eliminate_moles_eq. cbn. repeat split.
Qed.

(** C7, as the code has it.  Let reaction [irxn] be converged, its
    species [kspec] not be a zero-mole species of a multispecies phase
    (so that the pass takes the skip-converged branch), and no other
    reaction form [kspec].  Call the function twice in a row, the mole
    number of [kspec] being the same at both calls.  Then [ds[kspec]]
    is, after each call, what it was before the first: the branch does
    not write the step.  It is zero after both calls if it was zero
    before. *)
Theorem converged_step_unchanged (st : VCS_SOLVE) (irxn : nat) :
  (irxn < m_numRxnRdc st)%nat ->
  (forall j, (j < m_numRxnRdc st)%nat -> j <> irxn ->
     ir st !!! j <> ir st !!! irxn) ->
  skips_converged st irxn = true ->
  let kspec := ir st !!! irxn in
  let st1 := snd (vcs_rxn_adj_cg MAJOR MINOR st) in
  let st2 := snd (vcs_rxn_adj_cg MAJOR MINOR st1) in
  soln st1 !!! kspec = soln st !!! kspec ->
  (ds st1 !!! kspec = ds st !!! kspec /\
   ds st2 !!! kspec = ds st !!! kspec) /\
  (ds st !!! kspec = 0.0 ->
   ds st1 !!! kspec = 0.0 /\ ds st2 !!! kspec = 0.0).
Proof.
  intros Hi Hir Hconv kspec st1 st2 Hsoln.
  destruct (rxn_adj_loop_keeps_step (m_numRxnRdc st) 0 0 st irxn)
    as [Hds1 [Eir [Edg [Etol [Ess Enum]]]]].
  { intros j Hj. apply Hir. lia. }
  { exact Hconv. }
  cbn zeta in Hds1. fold (vcs_rxn_adj_cg MAJOR MINOR st) in *.
  fold st1 in Hds1, Eir, Edg, Etol, Ess, Enum. fold kspec in Hds1.
  assert (Hconv1 : skips_converged st1 irxn = true).
  { unfold skips_converged in *. cbn zeta in *.
    rewrite Eir, Edg, Etol, Ess. fold kspec. rewrite Hsoln. exact Hconv. }
  destruct (rxn_adj_loop_keeps_step (m_numRxnRdc st1) 0 0 st1 irxn)
    as [Hds2 _].
  { intros j Hj. rewrite Eir. apply Hir. lia. }
  { exact Hconv1. }
  cbn zeta in Hds2. fold (vcs_rxn_adj_cg MAJOR MINOR st1) in Hds2.
  fold st2 in Hds2. rewrite Eir in Hds2. fold kspec in Hds2.
  assert (H12 : ds st1 !!! kspec = ds st !!! kspec
                /\ ds st2 !!! kspec = ds st !!! kspec)
    by (split; congruence).
  split; [exact H12 |].
  intros Hz. destruct H12 as [H1 H2]. split; congruence.
Qed.

End Converged.

Lemma converged_step_unchanged_witness :
  ds (snd (vcs_rxn_adj_cg 1 0 (st_two_solids 5.0 0.0 0.0))) !!! 1%nat = 0.0 /\
  ds (snd (vcs_rxn_adj_cg 1 0
             (snd (vcs_rxn_adj_cg 1 0 (st_two_solids 5.0 0.0 0.0)))))
    !!! 1%nat = 0.0.
Proof.
  apply (converged_step_unchanged 1 0 (st_two_solids 5.0 0.0 0.0) 0).
  - vm_compute. lia.
  - intros j Hj Hne. vm_compute in Hj. lia.
  - reflexivity.
  - reflexivity.
  - reflexivity.
Defined.

(** C7, as the specification words it, fails.  In [st_two_solids] with
    [dg[0] = 0] the only reaction is converged, and [ds[1] = 0.25] is
    what an earlier round left for its species.  The pass takes the
    skip-converged branch, which does not write [ds]: after the first
    call and after the second the step is still [0.25], not zero. *)
Lemma converged_step_not_zeroed :
  Qabs (dg (st_two_solids 5.0 0.0 0.25) !!! 0%nat)
    <= tolmaj2 (st_two_solids 5.0 0.0 0.25) /\
  skips_converged (st_two_solids 5.0 0.0 0.25) 0 = true /\
  ~ ds (snd (vcs_rxn_adj_cg 1 0 (st_two_solids 5.0 0.0 0.25))) !!! 1%nat
    == 0 /\
  ~ ds (snd (vcs_rxn_adj_cg 1 0
               (snd (vcs_rxn_adj_cg 1 0 (st_two_solids 5.0 0.0 0.25)))))
      !!! 1%nat == 0.
Proof.
  repeat split; by_compute.
Qed.

(** ** The Hessian diagonal and the line search on binary64 numbers *)

Section Binary64.

#[local] Open Scope float_scope.

(** C1 fails on the code.  The smallest positive double, [2^-1074], is
    an ideal diagonal greater than zero.  With an activity-coefficient
    term of [-1.0] the corrector takes its last branch; the product
    [0.6666 * 2^-1074] rounds to [2^-1074] itself, and the value
    returned is [0.0]: it is not greater than zero and it is less than
    a third of the ideal diagonal, although the comment of lines
    259-261 says that the diagonal must remain positive.  For the ideal
    diagonal [4 * 2^-1074] the value returned is [2^-1074], a quarter of
    the ideal diagonal and so less than a third of it. *)
Theorem hessian_diag_adj_not_positive :
  B64.vcs_Hessian_actCoeff_diag (B64.st_hessian (-1.0)) 0 = -1.0 /\
  (PrimFloat.ltb 0.0 0x1p-1074 = true /\
   B64.vcs_Hessian_diag_adj (B64.st_hessian (-1.0)) 0 0x1p-1074 = Some 0.0 /\
   PrimFloat.ltb 0.0 0.0 = false /\
   (B64.rational 0.0 < (1 # 3) * B64.rational 0x1p-1074)%Q) /\
  (PrimFloat.ltb 0.0 0x4p-1074 = true /\
   B64.vcs_Hessian_diag_adj (B64.st_hessian (-1.0)) 0 0x4p-1074
     = Some 0x1p-1074 /\
   (B64.rational 0x1p-1074 < (1 # 3) * B64.rational 0x4p-1074)%Q).
Proof. repeat split. Qed.

Variable vcs_chemPotPhase :
  B64.VCS_SOLVE -> nat -> list float -> list float -> list float ->
  list float * list float.
Variable vcs_dcopy : list float -> list float -> nat -> list float.

(** C6, as the code has it.  Let the search get past the early exits,
    so that [deltaG1] is evaluated at the full step.  When the three
    tests of lines 466, 474 and 475 come out as the interpolation needs
    them -- [deltaG1 * deltaGOrig > 0.0] false,
    [fabs(deltaG1) < 0.8 * forig] true with
    [forig = fabs(deltaGOrig) + 1.0E-15], and
    [deltaG1 * deltaGOrig < 0.0] true, each evaluated on doubles -- the
    step returned is the double [-deltaGOrig / slope] with
    [slope = (deltaG1 - deltaGOrig) / dx_orig].  For [deltaGOrig = 1.0]
    and [deltaG1 = -0.5] the tests come out so, and the step returned is
    [-1.0 / (-1.5 / dx_orig)]. *)
Theorem line_search_interpolates (st : B64.VCS_SOLVE) (irxn : nat)
    (dx_orig deltaGOrig deltaG1 : float) (st0 st1 : B64.VCS_SOLVE) :
  B64.deltaG_base vcs_chemPotPhase st irxn = (deltaGOrig, st0) ->
  B64.line_search_rejects deltaGOrig dx_orig = false ->
  B64.deltaG_full_step vcs_chemPotPhase vcs_dcopy st0 irxn dx_orig
    = (deltaG1, st1) ->
  (PrimFloat.ltb 0.0 (deltaG1 * deltaGOrig) = false ->
   PrimFloat.ltb (B64.fabs deltaG1) (0.8 * (B64.fabs deltaGOrig + 1.0E-15))
     = true ->
   PrimFloat.ltb (deltaG1 * deltaGOrig) 0.0 = true ->
   B64.vcs_line_search vcs_chemPotPhase vcs_dcopy st irxn dx_orig
   = (- deltaGOrig / ((deltaG1 - deltaGOrig) / dx_orig), st1)) /\
  (deltaGOrig = 1.0 -> deltaG1 = -0.5 ->
   B64.vcs_line_search vcs_chemPotPhase vcs_dcopy st irxn dx_orig
   = (-1.0 / (-1.5 / dx_orig), st1)).
Proof.
  intros Hbase Hrej Hfull.
  assert (Hrun :
    B64.vcs_line_search vcs_chemPotPhase vcs_dcopy st irxn dx_orig
    = B64.line_search_decide vcs_chemPotPhase irxn dx_orig deltaGOrig
        (B64.fabs deltaGOrig + 1.0E-15) deltaG1 st1).
  { unfold B64.vcs_line_search. now rewrite Hbase, Hrej, Hfull. }
  rewrite Hrun. unfold B64.line_search_decide. split.
  - intros E1 E2 E3. now rewrite E1, E2, E3.
  - intros -> ->. reflexivity.
Qed.

End Binary64.

Lemma line_search_interpolates_witness :
  B64.vcs_line_search (B64.chemPot_between 1.0 (-0.5)) B64.dcopy_prefix
    (B64.st_hessian 0.0) 0 (-1.0)
  = ((- 1.0 / ((-0.5 - 1.0) / -1.0))%float,
     snd (B64.deltaG_full_step (B64.chemPot_between 1.0 (-0.5))
            B64.dcopy_prefix
            (snd (B64.deltaG_base (B64.chemPot_between 1.0 (-0.5))
                    (B64.st_hessian 0.0) 0))
            0 (-1.0))).
Proof.
  apply (proj1 (line_search_interpolates (B64.chemPot_between 1.0 (-0.5))
                  B64.dcopy_prefix (B64.st_hessian 0.0) 0 (-1.0)
                  1.0 (-0.5)
                  (snd (B64.deltaG_base (B64.chemPot_between 1.0 (-0.5))
                          (B64.st_hessian 0.0) 0))
                  (snd (B64.deltaG_full_step (B64.chemPot_between 1.0 (-0.5))
                          B64.dcopy_prefix
                          (snd (B64.deltaG_base
                                  (B64.chemPot_between 1.0 (-0.5))
                                  (B64.st_hessian 0.0) 0))
                          0 (-1.0)))
                  eq_refl eq_refl eq_refl));
    reflexivity.
Defined.

(** Scenario D of the specification: for a proposed step of [-1.0] the
    interpolated step is the double [-1.0 / 1.5]. *)
Example scenario_D :
  fst (B64.vcs_line_search (B64.chemPot_between 1.0 (-0.5)) B64.dcopy_prefix
         (B64.st_hessian 0.0) 0 (-1.0))
  = (-1.0 / 1.5)%float.
Proof. reflexivity. Qed.

(** C6, as the specification words it, fails on the code.  On
    [st_hessian]:

    - With a proposed step of [-1.0], [deltaGOrig = 1e-200] and
      [deltaG1 = -0.5e-200] differ in sign and the second is half the
      first in magnitude, but their product underflows to [-0.0], which
      is not less than [0.0]: the test of line 475 fails and the step
      returned is [dx_orig = -1.0], not the interpolated step of about
      [-0.667].

    - With a proposed step of [-1.0], [deltaGOrig = 43.0] and
      [deltaG1 = -34.4] differ in sign, and the double [-34.4] is below
      [0.8 * 43] in magnitude, but [0.8 * (43.0 + 1.0E-15)] rounds to
      the double [34.4]: the test of line 474 fails, the halving loop
      runs, and the step returned is [-0.5], not the interpolated step
      of about [-0.556].

    - With [deltaGOrig = 1.0], [deltaG1 = -0.5] and a proposed step of
      [-0.3] the step returned is [-1.0 / (-1.5 / -0.3)], which is the
      double [-0.2]; [-0.3 / 1.5] is the double before it.

    In the first two the step returned is not the interpolated step
    either when both are read as the numbers they stand for. *)
Lemma line_search_interpolation_missed :
  (fst (B64.vcs_line_search (B64.chemPot_between 1e-200 (-0.5e-200))
          B64.dcopy_prefix (B64.st_hessian 0.0) 0 (-1.0)) = (-1.0)%float /\
   ~ B64.interpolates_as_specified (B64.chemPot_between 1e-200 (-0.5e-200))
       B64.dcopy_prefix (B64.st_hessian 0.0) 0 (-1.0) /\
   ~ B64.rational (-1.0)
     == - B64.rational 1e-200
        / ((B64.rational (-0.5e-200) - B64.rational 1e-200)
           / B64.rational (-1.0))) /\
  (fst (B64.vcs_line_search (B64.chemPot_between 43.0 (-34.4))
          B64.dcopy_prefix (B64.st_hessian 0.0) 0 (-1.0)) = (-0.5)%float /\
   ~ B64.interpolates_as_specified (B64.chemPot_between 43.0 (-34.4))
       B64.dcopy_prefix (B64.st_hessian 0.0) 0 (-1.0) /\
   ~ B64.rational (-0.5)
     == - B64.rational 43.0
        / ((B64.rational (-34.4) - B64.rational 43.0)
           / B64.rational (-1.0))) /\
  (fst (B64.vcs_line_search (B64.chemPot_step 1.0 (-0.5))
          B64.dcopy_prefix (B64.st_hessian 0.0) 0 (-0.3)) = (-0.2)%float /\
   ~ B64.scenario_D_as_specified (B64.chemPot_step 1.0 (-0.5))
       B64.dcopy_prefix (B64.st_hessian 0.0) 0 (-0.3)).
Proof.
  split; [| split].
  - split; [reflexivity |]. split; [| by_compute].
    intros H. unfold B64.interpolates_as_specified in H. cbn zeta in H.
    assert (E : PrimFloat.eqb
                  (fst (B64.vcs_line_search
                          (B64.chemPot_between 1e-200 (-0.5e-200))
                          B64.dcopy_prefix (B64.st_hessian 0.0) 0 (-1.0)))
                  (-1.0) = true) by reflexivity.
    rewrite H in E.
    + vm_compute in E. discriminate.
    + reflexivity.
    + reflexivity.
    + left. split; reflexivity.
  - split; [reflexivity |]. split; [| by_compute].
    intros H. unfold B64.interpolates_as_specified in H. cbn zeta in H.
    assert (E : PrimFloat.eqb
                  (fst (B64.vcs_line_search
                          (B64.chemPot_between 43.0 (-34.4))
                          B64.dcopy_prefix (B64.st_hessian 0.0) 0 (-1.0)))
                  (-0.5) = true) by reflexivity.
    rewrite H in E.
    + vm_compute in E. discriminate.
    + reflexivity.
    + reflexivity.
    + left. split; reflexivity.
  - split; [reflexivity |].
    intros H. unfold B64.scenario_D_as_specified in H. cbn zeta in H.
    assert (E : PrimFloat.eqb
                  (fst (B64.vcs_line_search (B64.chemPot_step 1.0 (-0.5))
                          B64.dcopy_prefix (B64.st_hessian 0.0) 0 (-0.3)))
                  (-0.2) = true) by reflexivity.
    rewrite H in E.
    + vm_compute in E. discriminate.
    + reflexivity.
    + reflexivity.
    + reflexivity.
Qed.

(** * Further properties of the code *)

(** ** The Hessian diagonal, continued *)

(** The three branches of the corrector are one formula: the
    activity-coefficient term is added, but never less than
    [-0.6666 * ideal]. *)
Lemma hessian_clamp_max (ideal h : Q) :
  0 < ideal -> hessian_clamp ideal h == ideal + Qmax h (- (0.6666 * ideal)).
Proof.
  intros Hpos. unfold hessian_clamp, fabs.
  destruct (Qgeb h 0.0) eqn:Hge.
  - apply Qgeb_true in Hge. rewrite Q.max_l by lra. reflexivity.
  - apply Qgeb_false in Hge.
    destruct (Qltb (Qabs h) (0.6666 * ideal)) eqn:Hlt.
    + apply Qltb_true in Hlt. rewrite Qabs_neg in Hlt by lra.
      rewrite Q.max_l by lra. reflexivity.
    + apply Qltb_false in Hlt. rewrite Qabs_neg in Hlt by lra.
      rewrite Q.max_r by lra. lra.
Qed.

(** X1.  For an ideal diagonal greater than zero the corrector returns
    [ideal + max(h, -0.6666 * ideal)], [h] being the
    activity-coefficient term of the reaction. *)
Theorem hessian_diag_adj_closed_form (st : VCS_SOLVE) (irxn : nat)
    (hessianDiag_Ideal : double) :
  0 < hessianDiag_Ideal ->
  exists diag,
    vcs_Hessian_diag_adj st irxn hessianDiag_Ideal = Some diag /\
    diag == hessianDiag_Ideal
            + Qmax (vcs_Hessian_actCoeff_diag st irxn)
                   (- (0.6666 * hessianDiag_Ideal)).
Proof.
  intros Hpos. eexists. split.
  - apply hessian_diag_adj_some, Hpos.
  - apply hessian_clamp_max, Hpos.
Qed.

Lemma hessian_diag_adj_closed_form_witness :
  exists diag,
    vcs_Hessian_diag_adj (st_hessian (-3.0)) 0 2.0 = Some diag /\
    diag == 2.0 + Qmax (vcs_Hessian_actCoeff_diag (st_hessian (-3.0)) 0)
                       (- (0.6666 * 2.0)).
Proof.
  apply (hessian_diag_adj_closed_form (st_hessian (-3.0)) 0 2.0).
  reflexivity.
Defined.

(** X2.  The corrected diagonal grows with the activity-coefficient
    term: of two reactions (or two states) with the same ideal diagonal,
    the one with the larger term never gets the smaller result. *)
Theorem hessian_diag_adj_monotone (st1 st2 : VCS_SOLVE) (irxn1 irxn2 : nat)
    (hessianDiag_Ideal : double) :
  0 < hessianDiag_Ideal ->
  vcs_Hessian_actCoeff_diag st1 irxn1 <= vcs_Hessian_actCoeff_diag st2 irxn2 ->
  exists d1 d2,
    vcs_Hessian_diag_adj st1 irxn1 hessianDiag_Ideal = Some d1 /\
    vcs_Hessian_diag_adj st2 irxn2 hessianDiag_Ideal = Some d2 /\
    d1 <= d2.
Proof.
  intros Hpos Hle. eexists _, _.
  split; [apply hessian_diag_adj_some, Hpos |].
  split; [apply hessian_diag_adj_some, Hpos |].
  rewrite !hessian_clamp_max by exact Hpos.
  apply Qplus_le_r. apply Q.max_le_compat_r. exact Hle.
Qed.

Lemma hessian_diag_adj_monotone_witness :
  exists d1 d2,
    vcs_Hessian_diag_adj (st_hessian (-3.0)) 0 2.0 = Some d1 /\
    vcs_Hessian_diag_adj (st_hessian 0.5) 0 2.0 = Some d2 /\
    d1 <= d2.
Proof.
  apply (hessian_diag_adj_monotone (st_hessian (-3.0)) (st_hessian 0.5)
           0 0 2.0); by_compute.
Defined.

(** X3.  When every component is in a single-species phase, the
    activity-coefficient term of a reaction is the diagonal entry of the
    Jacobian for the species the reaction forms: the components add
    nothing. *)
Theorem hessian_actCoeff_single_species (st : VCS_SOLVE) (irxn : nat) :
  (forall l, (l < m_numComponents st)%nat -> SSPhase st !!! l = true) ->
  vcs_Hessian_actCoeff_diag st irxn
  = (dLnActCoeffdMolNum st !!! (ir st !!! irxn)) !!! (ir st !!! irxn).
Proof.
  intros Hss. unfold vcs_Hessian_actCoeff_diag. cbn zeta.
  apply (for_loop_invariant
           (fun s => s = (dLnActCoeffdMolNum st !!! (ir st !!! irxn))
                          !!! (ir st !!! irxn))); [reflexivity |].
  intros l s Hl ->. now rewrite (Hss l Hl).
Qed.

Lemma hessian_actCoeff_single_species_witness :
  vcs_Hessian_actCoeff_diag (st_two_solids 5.0 (-1.0) 0.0) 0
  = (dLnActCoeffdMolNum (st_two_solids 5.0 (-1.0) 0.0) !!! 1%nat) !!! 1%nat.
Proof.
  apply (hessian_actCoeff_single_species (st_two_solids 5.0 (-1.0) 0.0) 0).
  intros l Hl. destruct l as [|l]; [reflexivity |].
  vm_compute in Hl. lia.
Defined.

(** X4.  In an ideal solution -- every entry of the Jacobian is zero --
    the activity-coefficient term is zero and the corrector returns the
    ideal diagonal. *)
Theorem hessian_ideal_solution (st : VCS_SOLVE) (irxn : nat)
    (hessianDiag_Ideal : double) :
  (forall i j, (dLnActCoeffdMolNum st !!! i) !!! j == 0) ->
  0 < hessianDiag_Ideal ->
  vcs_Hessian_actCoeff_diag st irxn == 0 /\
  exists diag,
    vcs_Hessian_diag_adj st irxn hessianDiag_Ideal = Some diag /\
    diag == hessianDiag_Ideal.
Proof.
  intros HJ Hpos.
  assert (Hh : vcs_Hessian_actCoeff_diag st irxn == 0).
  { unfold vcs_Hessian_actCoeff_diag. cbn zeta.
    apply (for_loop_invariant (fun s => s == 0)); [apply HJ |].
    intros l s Hl Hs.
    destruct (negb (SSPhase st !!! l)); [| exact Hs].
    assert (Hin : for_loop (m_numComponents st)
              (fun k s0 =>
                 if Nat.eqb (PhaseID st !!! k) (PhaseID st !!! l)
                 then s0 + (sc st !!! irxn) !!! k * (sc st !!! irxn) !!! l
                           * (dLnActCoeffdMolNum st !!! k) !!! l
                 else s0) s == 0).
    { apply (for_loop_invariant (fun s0 => s0 == 0)); [exact Hs |].
      intros k s0 Hk Hs0.
      destruct (Nat.eqb (PhaseID st !!! k) (PhaseID st !!! l));
        [| exact Hs0].
      rewrite Hs0, (HJ k l). ring. }
    destruct (Nat.eqb (PhaseID st !!! (ir st !!! irxn)) (PhaseID st !!! l));
      [| exact Hin].
    rewrite Hin, (HJ (ir st !!! irxn) l), (HJ l (ir st !!! irxn)). ring. }
  split; [exact Hh |].
  eexists. split; [apply hessian_diag_adj_some, Hpos |].
  rewrite hessian_clamp_max by exact Hpos. rewrite Hh.
  rewrite Q.max_l by lra. ring.
Qed.

Lemma hessian_ideal_solution_witness :
  vcs_Hessian_actCoeff_diag (st_three_phases (-1.0) 2.0) 0 == 0 /\
  exists diag,
    vcs_Hessian_diag_adj (st_three_phases (-1.0) 2.0) 0 2.0 = Some diag /\
    diag == 2.0.
Proof.
  apply (hessian_ideal_solution (st_three_phases (-1.0) 2.0) 0 2.0).
  - intros i j.
    destruct i as [|[|[|[|i]]]]; destruct j as [|[|[|[|j]]]]; reflexivity.
  - reflexivity.
Defined.

(** ** The curvature *)

(** X5.  A reaction entirely among single-species phases has curvature
    exactly zero: when the species it forms and every component are in
    single-species phases and every phase is a single-species phase, no
    term is added to [s]. *)
Theorem rxn_curvature_single_species (st : VCS_SOLVE) (irxn : nat) :
  SSPhase st !!! (ir st !!! irxn) = true ->
  (forall j, (j < m_numComponents st)%nat -> SSPhase st !!! j = true) ->
  (forall p, (p < NPhase st)%nat ->
     VPhaseList_SingleSpecies st !!! p = true) ->
  rxn_curvature st irxn = 0.0.
Proof.
  intros Hk Hc Hp. unfold rxn_curvature. cbn zeta. rewrite Hk.
  apply (for_loop_invariant (fun s => s = 0.0)).
  - apply (for_loop_invariant (fun s => s = 0.0)); [reflexivity |].
    intros j s Hj ->. now rewrite (Hc j Hj).
  - intros p s Hlt ->. now rewrite (Hp p Hlt).
Qed.

Lemma rxn_curvature_single_species_witness :
  rxn_curvature (st_two_solids 5.0 (-1.0) 0.0) 0 = 0.0.
Proof.
  apply (rxn_curvature_single_species (st_two_solids 5.0 (-1.0) 0.0) 0).
  - reflexivity.
  - intros j Hj. destruct j as [|j]; [reflexivity |].
    vm_compute in Hj. lia.
  - intros p Hp. destruct p as [|[|p]]; [reflexivity | reflexivity |].
    vm_compute in Hp. lia.
Defined.

(** ** The reaction adjustment as a whole *)

Section WholeCall.

Variables MAJOR MINOR : Z.

(** What a pass that does not return writes, in full: [ds[kspec]] as
    [step_written] says, and, only when it revives a species,
    [spStatus[irxn]] and the counter. *)
Lemma rxn_adj_iter_writes (irxn k : nat) (st st' : VCS_SOLVE) (k' : nat) :
  rxn_adj_iter MAJOR MINOR irxn k st = Continue st' k' ->
  exists cnt sp,
    st' = set_numRxnMinorZeroed cnt
            (set_spStatus sp
               (set_ds (match step_written MINOR st irxn with
                        | Some v => <[ ir st !!! irxn := v ]> (ds st)
                        | None => ds st
                        end) st)) /\
    ((sp = spStatus st /\ cnt = m_numRxnMinorZeroed st) \/
     (sp = <[ irxn := MAJOR ]> (spStatus st) /\
      cnt = (m_numRxnMinorZeroed st - 1)%Z /\
      step_written MINOR st irxn = Some 1.0e-10)).
Proof.
  unfold rxn_adj_iter, step_written. cbn zeta. intros H.
  destruct (Qeq_bool (soln st !!! (ir st !!! irxn)) 0.0
            && negb (SSPhase st !!! (ir st !!! irxn))).
  - destruct (Qltb (dg st !!! irxn) (-1.0e-4)); injection H as <- <-.
    + eexists _, _. split; [reflexivity |]. right. repeat split.
    + exists (m_numRxnMinorZeroed st), (spStatus st).
      split; [destruct st; reflexivity | left; split; reflexivity].
  - destruct (Qle_bool (fabs (dg st !!! irxn)) (tolmaj2 st)).
    { injection H as <- <-.
      exists (m_numRxnMinorZeroed st), (spStatus st).
      split; [apply VCS_SOLVE_eta | left; split; reflexivity]. }
    destruct ((spStatus st !!! irxn <=? MINOR)%Z && Qgeb (dg st !!! irxn) 0.0).
    { injection H as <- <-.
      exists (m_numRxnMinorZeroed st), (spStatus st).
      split; [apply VCS_SOLVE_eta | left; split; reflexivity]. }
    destruct (Qneb (rxn_curvature st irxn) 0.0).
    { injection H as <- <-.
      exists (m_numRxnMinorZeroed st), (spStatus st).
      split; [destruct st; reflexivity | left; split; reflexivity]. }
    destruct (elimination_bound st irxn k) as [dss k1].
    destruct (Qneb dss 0.0); [discriminate |].
    injection H as <- <-.
    exists (m_numRxnMinorZeroed st), (spStatus st).
    split; [apply VCS_SOLVE_eta | left; split; reflexivity].
Qed.

(** An invariant of the loop over reactions: it holds on entry and
    every pass keeps it, whether the pass returns or not. *)
Lemma rxn_adj_loop_invariant (P : VCS_SOLVE -> Prop) (n i0 k : nat)
    (st : VCS_SOLVE) :
  P st ->
  (forall i k st st' k', (i0 <= i < i0 + n)%nat -> P st ->
     rxn_adj_iter MAJOR MINOR i k st = Continue st' k' -> P st') ->
  (forall i k st soldel st', (i0 <= i < i0 + n)%nat -> P st ->
     rxn_adj_iter MAJOR MINOR i k st = Return soldel st' -> P st') ->
  P (snd (rxn_adj_loop MAJOR MINOR n i0 k st)).
Proof.
  revert i0 k st. induction n as [|n IH]; intros i0 k st HP Hc Hr.
  - exact HP.
  - cbn [rxn_adj_loop].
    destruct (rxn_adj_iter MAJOR MINOR i0 k st) as [st1 k1 | c st1] eqn:Hit.
    + apply IH.
      * apply (Hc i0 k st st1 k1); [lia | exact HP | exact Hit].
      * intros i k2 st2 st3 k3 Hi. apply Hc. lia.
      * intros i k2 st2 c st3 Hi. apply Hr. lia.
    + cbn [snd]. apply (Hr i0 k st c st1); [lia | exact HP | exact Hit].
Qed.

Lemma rxn_adj_loop_code (n i0 k : nat) (st : VCS_SOLVE) :
  let r := rxn_adj_loop MAJOR MINOR n i0 k st in
  (fst r = 0%Z \/ fst r = 1%Z \/ fst r = 2%Z) /\
  (fst r = 0%Z -> soln (snd r) = soln st /\ TPhMoles (snd r) = TPhMoles st).
Proof.
  revert i0 k st. induction n as [|n IH]; intros i0 k st; cbn zeta.
  - cbn. split; [now left | intros _; split; reflexivity].
  - cbn [rxn_adj_loop].
    destruct (rxn_adj_iter MAJOR MINOR i0 k st) as [st1 k1 | c st1] eqn:Hit.
    + apply rxn_adj_iter_continue in Hit as [cnt [sp [d [-> _]]]].
      exact (IH (S i0) k1
               (set_numRxnMinorZeroed cnt (set_spStatus sp (set_ds d st)))).
    + apply rxn_adj_iter_return in Hit as [_ [_ [_ ->]]]. cbn [fst snd].
      destruct (Nat.eqb _ _).
      * split; [right; left; reflexivity | discriminate].
      * split; [right; right; reflexivity | discriminate].
Qed.

(** X8.  The function returns 0, 1 or 2, and when it returns 0 it has
    written no mole number and no phase total: [soln] and [TPhMoles]
    change in the elimination branch only. *)
Theorem rxn_adj_code_range (st : VCS_SOLVE) :
  let r := vcs_rxn_adj_cg MAJOR MINOR st in
  (fst r = 0%Z \/ fst r = 1%Z \/ fst r = 2%Z) /\
  (fst r = 0%Z -> soln (snd r) = soln st /\ TPhMoles (snd r) = TPhMoles st).
Proof. apply rxn_adj_loop_code. Qed.

(** X7.  The elimination update, entry by entry.  When a pass is
    reached that takes the degenerate branch with [dss != 0] and the
    species [kspec] it forms is not a component, the function returns
    with these mole numbers: [0.0] for the species [k] zeroed out,
    [soln[kspec] + dss] for [kspec], [soln[x] + dss * sc[irxn][x]] for
    a component [x], and [soln[x]] for every other species -- [soln]
    being the mole numbers the function was entered with, and [dss] and
    [k] what the search of lines 162-186 returned. *)
Theorem eliminate_is_reaction_step (st : VCS_SOLVE) (i k_i : nat)
    (st_i : VCS_SOLVE) :
  (i < m_numRxnRdc st)%nat ->
  rxn_adj_passes MAJOR MINOR i 0 0 st = Some (k_i, st_i) ->
  degenerate MINOR st_i i ->
  let kspec := ir st !!! i in
  let dss := fst (elimination_bound st_i i k_i) in
  let k := snd (elimination_bound st_i i k_i) in
  ~ dss == 0 ->
  (m_numComponents st <= kspec)%nat ->
  forall x, (x < length (soln st))%nat ->
    soln (snd (vcs_rxn_adj_cg MAJOR MINOR st)) !!! x
    = if Nat.eqb x k then 0.0
      else if Nat.eqb x kspec then soln st !!! x + dss
      else if Nat.ltb x (m_numComponents st)
           then soln st !!! x + dss * (sc st !!! i) !!! x
           else soln st !!! x.
Proof.
  intros Hi Hp Hdeg kspec dss k Hdss Hnc x Hx.
  pose proof (rxn_adj_iter_degenerate MAJOR MINOR i k_i st_i Hdeg) as Hit.
  cbn zeta in Hit. fold dss k in Hit.
  assert (E : Qneb dss 0.0 = true) by (apply Qneb_true; lra).
  rewrite E in Hit.
  rewrite (rxn_adj_returns_at MAJOR MINOR st i k_i st_i _ _ Hi Hp Hit).
  cbn [snd].
  destruct (rxn_adj_passes_frame _ _ _ _ _ _ _ _ Hp) as [cnt [sp [d [Hst _]]]].
  assert (Hsoln : soln st_i = soln st) by (rewrite Hst; reflexivity).
  assert (Hir : ir st_i = ir st) by (rewrite Hst; reflexivity).
  assert (Hsc : sc st_i = sc st) by (rewrite Hst; reflexivity).
  assert (Hm : m_numComponents st_i = m_numComponents st)
    by (rewrite Hst; reflexivity).
  rewrite eliminate_soln_lookup by (rewrite Hm, Hir; exact Hnc).
  rewrite Hsoln, Hir, Hsc, Hm. fold kspec.
  replace (Nat.ltb x (length (soln st))) with true
    by (symmetry; apply Nat.ltb_lt; exact Hx).
  now rewrite !andb_true_r.
Qed.

Lemma eliminate_moles_length_snd (ids : list nat) (sc_irxn : list Q)
    (nc kspec : nat) (dss : Q) (k : nat) (mt : list Q * list Q) :
  length (snd (eliminate_moles ids sc_irxn nc kspec dss k mt))
  = length (snd mt).
Proof.
  unfold eliminate_moles, zero_moles. cbn [snd]. rewrite length_insert.
  apply (for_loop_invariant (fun r => length (snd r) = length (snd mt))).
  - apply add_moles_length.
  - intros j x _ Hx. rewrite <- Hx. apply add_moles_length.
Qed.

(** X9.  Whatever it returns, the function writes five members only --
    [soln], [TPhMoles], [ds], [spStatus] and [m_numRxnMinorZeroed] --
    and none of the four arrays changes its length: the stoichiometry,
    the residuals [dg], the phase data and the tolerances are as
    before. *)
Theorem rxn_adj_frame (st : VCS_SOLVE) :
  exists cnt sp d T S,
    snd (vcs_rxn_adj_cg MAJOR MINOR st)
    = set_numRxnMinorZeroed cnt
        (set_spStatus sp (set_ds d (set_TPhMoles T (set_soln S st)))) /\
    length S = length (soln st) /\ length T = length (TPhMoles st) /\
    length d = length (ds st) /\ length sp = length (spStatus st).
Proof.
  unfold vcs_rxn_adj_cg.
  apply (rxn_adj_loop_invariant
           (fun st' => exists cnt sp d T S,
              st' = set_numRxnMinorZeroed cnt
                      (set_spStatus sp
                         (set_ds d (set_TPhMoles T (set_soln S st)))) /\
              length S = length (soln st) /\
              length T = length (TPhMoles st) /\
              length d = length (ds st) /\
              length sp = length (spStatus st))).
  - exists (m_numRxnMinorZeroed st), (spStatus st), (ds st),
      (TPhMoles st), (soln st).
    split; [destruct st; reflexivity | repeat split].
  - intros i k st1 st2 k2 _ [cnt [sp [d [T [S [-> [HS [HT [Hd Hsp]]]]]]]]] Hit.
    apply rxn_adj_iter_writes in Hit as [cnt' [sp' [-> Hcase]]].
    eexists cnt', sp', _, T, S. split; [reflexivity |].
    split; [exact HS |]. split; [exact HT |]. split.
    + destruct (step_written MINOR _ i);
        [rewrite length_insert |]; exact Hd.
    + destruct Hcase as [[-> _] | [-> _]];
        [| rewrite length_insert]; exact Hsp.
  - intros i k st1 c st2 _ [cnt [sp [d [T [S [-> [HS [HT [Hd Hsp]]]]]]]]] Hit.
    apply rxn_adj_iter_return in Hit as [_ [_ [Hst2 _]]].
    rewrite eliminate_moles_eq in Hst2. cbn zeta in Hst2.
    match type of Hst2 with
    | _ = set_TPhMoles (snd ?R) _ => exists cnt, sp, d, (snd R), (fst R)
    end.
    split; [rewrite Hst2; reflexivity |].
    rewrite eliminate_moles_length, eliminate_moles_length_snd.
    cbn [fst snd soln TPhMoles set_numRxnMinorZeroed set_spStatus set_ds
         set_TPhMoles set_soln].
    repeat split; assumption.
Qed.

(** The counter and the status flags after [n] passes of the loop. *)
Lemma rxn_adj_loop_promotes (n i0 k : nat) (st : VCS_SOLVE) :
  let st' := snd (rxn_adj_loop MAJOR MINOR n i0 k st) in
  (m_numRxnMinorZeroed st - Z.of_nat n <= m_numRxnMinorZeroed st'
   <= m_numRxnMinorZeroed st)%Z /\
  forall i, spStatus st' !!! i = spStatus st !!! i
            \/ spStatus st' !!! i = MAJOR.
Proof.
  revert i0 k st. induction n as [|n IH]; intros i0 k st; cbn zeta.
  - cbn. split; [lia | now left].
  - cbn [rxn_adj_loop].
    destruct (rxn_adj_iter MAJOR MINOR i0 k st) as [st1 k1 | c st1] eqn:Hit.
    + apply rxn_adj_iter_writes in Hit as [cnt [sp [-> Hcase]]].
      match goal with
      | |- context [rxn_adj_loop _ _ n (S i0) k1 ?s] =>
          specialize (IH (S i0) k1 s)
      end.
      cbn zeta in IH. destruct IH as [Hcnt Hsp].
      cbn [m_numRxnMinorZeroed spStatus set_numRxnMinorZeroed set_spStatus]
        in Hcnt, Hsp.
      destruct Hcase as [[-> ->] | [-> [-> _]]].
      * split; [lia | exact Hsp].
      * split; [lia |]. intros j. destruct (Hsp j) as [H | H]; [| now right].
        rewrite H, list_lookup_total_insert.
        destruct (decide _); [now right | now left].
    + apply rxn_adj_iter_return in Hit as [_ [_ [-> _]]]. cbn [snd].
      rewrite eliminate_moles_eq. cbn. split; [lia | now left].
Qed.

(** X11.  The function only ever promotes.  The counter
    [m_numRxnMinorZeroed] is an [int]; when it can be decremented once
    per reaction without leaving the range of a 32-bit [int], it ends
    between its value on entry less the number of reactions and its
    value on entry, still within that range; and every status flag is,
    on return, what it was or [VCS_SPECIES_MAJOR]. *)
Theorem rxn_adj_only_promotes (st : VCS_SOLVE) :
  (- 2147483648 + Z.of_nat (m_numRxnRdc st) <= m_numRxnMinorZeroed st
   <= 2147483647)%Z ->
  let st' := snd (vcs_rxn_adj_cg MAJOR MINOR st) in
  (m_numRxnMinorZeroed st - Z.of_nat (m_numRxnRdc st)
   <= m_numRxnMinorZeroed st' <= m_numRxnMinorZeroed st)%Z /\
  (- 2147483648 <= m_numRxnMinorZeroed st' <= 2147483647)%Z /\
  forall i, spStatus st' !!! i = spStatus st !!! i
            \/ spStatus st' !!! i = MAJOR.
Proof.
  intros Hrange. cbn zeta. unfold vcs_rxn_adj_cg.
  destruct (rxn_adj_loop_promotes (m_numRxnRdc st) 0 0 st) as [Hcnt Hsp].
  cbn zeta in Hcnt. split; [exact Hcnt |]. split; [lia | exact Hsp].
Qed.

End WholeCall.

Lemma eliminate_is_reaction_step_witness :
  soln (snd (vcs_rxn_adj_cg 1 0 (st_two_solids 5.0 (-1.0) 0.0))) !!! 1%nat
  = 5.0 + fst (elimination_bound (st_two_solids 5.0 (-1.0) 0.0) 0 0).
Proof.
  apply (eliminate_is_reaction_step 1 0 (st_two_solids 5.0 (-1.0) 0.0) 0 0
           (st_two_solids 5.0 (-1.0) 0.0)).
  - vm_compute. lia.
  - reflexivity.
  - split; by_compute.
  - by_compute.
  - vm_compute. lia.
  - vm_compute. lia.
Defined.

Lemma rxn_adj_only_promotes_witness :
  (0 <= m_numRxnMinorZeroed (snd (vcs_rxn_adj_cg 1 0 st_dead_species))
   <= 1)%Z /\
  spStatus (snd (vcs_rxn_adj_cg 1 0 st_dead_species)) !!! 0%nat = 1%Z.
Proof.
  destruct (rxn_adj_only_promotes 1 0 st_dead_species) as [Hcnt [_ Hsp]].
  - vm_compute. split; discriminate.
  - split; [exact Hcnt |].
    destruct (Hsp 0%nat) as [H | H]; [| exact H].
    vm_compute in H. discriminate.
Defined.

(** ** The steps proposed on the normal path *)

Section NormalPath.

Variables MAJOR MINOR : Z.

(** What a pass assigns depends on nothing that the passes for other
    reactions write. *)
Lemma step_written_frame (st : VCS_SOLVE) (cnt : Z) (sp : list Z)
    (d : list Q) (i : nat) :
  sp !!! i = spStatus st !!! i ->
  step_written MINOR
    (set_numRxnMinorZeroed cnt (set_spStatus sp (set_ds d st))) i
  = step_written MINOR st i.
Proof.
  intros Hsp. unfold step_written. cbn zeta.
  cbn [ir soln SSPhase dg tolmaj2 spStatus
       set_numRxnMinorZeroed set_spStatus set_ds].
  rewrite Hsp.
  change (rxn_curvature
            (set_numRxnMinorZeroed cnt (set_spStatus sp (set_ds d st))) i)
    with (rxn_curvature st i).
  reflexivity.
Qed.

(** After [n] passes in a row that did not return, the entry of [ds]
    for the species of each of these reactions is what the pass for
    that reaction assigns when run on the state of entry, as long as no
    other of these reactions forms the same species. *)
Lemma rxn_adj_passes_steps (n i0 k : nat) (st : VCS_SOLVE) (k' : nat)
    (st' : VCS_SOLVE) :
  rxn_adj_passes MAJOR MINOR n i0 k st = Some (k', st') ->
  forall i, (i0 <= i < i0 + n)%nat ->
    (forall j, (i0 <= j < i0 + n)%nat -> j <> i ->
       ir st !!! j <> ir st !!! i) ->
    (ir st !!! i < length (ds st))%nat ->
    ds st' !!! (ir st !!! i)
    = match step_written MINOR st i with
      | Some v => v
      | None => ds st !!! (ir st !!! i)
      end.
Proof.
  revert i0 k st. induction n as [|n IH]; intros i0 k st Hp i Hi Huniq Hlen;
    [lia |].
  cbn [rxn_adj_passes] in Hp.
  destruct (rxn_adj_iter MAJOR MINOR i0 k st) as [st1 k1 | c st1] eqn:Hit;
    [| discriminate].
  apply rxn_adj_iter_writes in Hit as [cnt [sp [Hst1 Hcase]]].
  assert (Hd1 : length (ds st1) = length (ds st)).
  { rewrite Hst1. cbn [ds set_numRxnMinorZeroed set_spStatus set_ds].
    destruct (step_written MINOR st i0);
      [apply length_insert | reflexivity]. }
  assert (Eir : ir st1 = ir st) by (rewrite Hst1; reflexivity).
  destruct (Nat.eq_dec i i0) as [-> | Hne].
  - destruct (rxn_adj_passes_frame _ _ _ _ _ _ _ _ Hp)
      as [cnt' [sp' [d' [-> Hd']]]].
    cbn [ds set_numRxnMinorZeroed set_spStatus set_ds].
    rewrite <- Eir at 1. rewrite Hd'.
    + rewrite Hst1. cbn [ir ds set_numRxnMinorZeroed set_spStatus set_ds].
      destruct (step_written MINOR st i0); [| reflexivity].
      now apply list_lookup_total_insert_eq.
    + intros j Hj. rewrite Eir. apply Huniq; lia.
  - specialize (IH (S i0) k1 st1 Hp i ltac:(lia)).
    rewrite Eir, Hd1 in IH.
    rewrite IH; [| intros j Hj; apply Huniq; lia | exact Hlen].
    assert (Hsp : sp !!! i = spStatus st !!! i).
    { destruct Hcase as [[-> _] | [-> _]]; [reflexivity |].
      apply list_lookup_total_insert_ne. lia. }
    rewrite Hst1, (step_written_frame st cnt sp _ i Hsp).
    destruct (step_written MINOR st i); [reflexivity |].
    cbn [ds set_numRxnMinorZeroed set_spStatus set_ds].
    destruct (step_written MINOR st i0); [| reflexivity].
    apply list_lookup_total_insert_ne. apply Huniq; lia.
Qed.

(** A call that returns 0 ran every pass without returning. *)
Lemma rxn_adj_code0_passes (n i0 k : nat) (st : VCS_SOLVE) :
  fst (rxn_adj_loop MAJOR MINOR n i0 k st) = 0%Z ->
  exists k',
    rxn_adj_passes MAJOR MINOR n i0 k st
    = Some (k', snd (rxn_adj_loop MAJOR MINOR n i0 k st)).
Proof.
  revert i0 k st. induction n as [|n IH]; intros i0 k st H.
  - exists k. reflexivity.
  - cbn [rxn_adj_loop rxn_adj_passes] in *.
    destruct (rxn_adj_iter MAJOR MINOR i0 k st) as [st1 k1 | c st1] eqn:Hit.
    + apply IH, H.
    + apply rxn_adj_iter_return in Hit as [_ [_ [_ Hc]]].
      cbn [fst] in H. subst c.
      destruct (Nat.eqb _ _); discriminate.
Qed.

Lemma rxn_adj_normal_steps (st : VCS_SOLVE) (i : nat) :
  fst (vcs_rxn_adj_cg MAJOR MINOR st) = 0%Z ->
  (i < m_numRxnRdc st)%nat ->
  (forall j, (j < m_numRxnRdc st)%nat -> j <> i ->
     ir st !!! j <> ir st !!! i) ->
  (ir st !!! i < length (ds st))%nat ->
  ds (snd (vcs_rxn_adj_cg MAJOR MINOR st)) !!! (ir st !!! i)
  = match step_written MINOR st i with
    | Some v => v
    | None => ds st !!! (ir st !!! i)
    end.
Proof.
  intros Hcode Hi Huniq Hlen. unfold vcs_rxn_adj_cg in *.
  destruct (rxn_adj_code0_passes _ _ _ _ Hcode) as [k' Hp].
  apply (rxn_adj_passes_steps _ _ _ _ _ _ Hp); [lia | | exact Hlen].
  intros j Hj. apply Huniq. lia.
Qed.

(** X12.  On the normal path the reactions do not interfere.  When the
    function returns 0, the step it leaves for the species of a
    reaction is the one the code assigns to that reaction from the
    state of entry -- the seed [1.0e-10] or [0.0] for a species without
    moles in a multispecies phase, the Newton step [-dg / s] when the
    curvature is not zero -- and the step found on entry when the
    reaction is skipped or degenerate with a zero bound.  The reaction
    must be the only one that forms its species, and the species must
    exist in [ds]. *)
Theorem rxn_adj_steps_independent (st : VCS_SOLVE) (i : nat) :
  fst (vcs_rxn_adj_cg MAJOR MINOR st) = 0%Z ->
  (i < m_numRxnRdc st)%nat ->
  (forall j, (j < m_numRxnRdc st)%nat -> j <> i ->
     ir st !!! j <> ir st !!! i) ->
  (ir st !!! i < length (ds st))%nat ->
  ds (snd (vcs_rxn_adj_cg MAJOR MINOR st)) !!! (ir st !!! i)
  = match step_written MINOR st i with
    | Some v => v
    | None => ds st !!! (ir st !!! i)
    end.
Proof. apply rxn_adj_normal_steps. Qed.

End NormalPath.

Lemma rxn_adj_steps_independent_witness :
  ds (snd (vcs_rxn_adj_cg 1 0 (st_ideal_pair 0.3))) !!! 1%nat
  = match step_written 0 (st_ideal_pair 0.3) 0 with
    | Some v => v
    | None => ds (st_ideal_pair 0.3) !!! 1%nat
    end.
Proof.
  apply (rxn_adj_steps_independent 1 0 (st_ideal_pair 0.3) 0).
  - reflexivity.
  - vm_compute. lia.
  - intros j Hj Hne. vm_compute in Hj. lia.
  - vm_compute. lia.
Defined.

(** ** The line search, continued *)

Lemma line_search_writes_refl (st : VCS_SOLVE) : line_search_writes st st.
Proof.
  exists (wt st), (ActCoeff0 st), (ActCoeff st), (m_feSpecies_old st),
    (m_feSpecies_new st).
  destruct st; reflexivity.
Qed.

Lemma line_search_writes_wt (st st' : VCS_SOLVE) (w : list Q) :
  line_search_writes st st' -> line_search_writes st (set_wt w st').
Proof.
  intros [w' [a0 [a [fo [fn ->]]]]]. exists w, a0, a, fo, fn. reflexivity.
Qed.

Section LineSearchMore.

Variable vcs_chemPotPhase :
  VCS_SOLVE -> nat -> list double -> list double -> list double ->
  list double * list double.
Variable vcs_dcopy : list double -> list double -> nat -> list double.

Lemma deltaG_trial_writes (st st' : VCS_SOLVE) (irxn : nat) :
  line_search_writes st st' ->
  line_search_writes st (snd (deltaG_trial vcs_chemPotPhase st' irxn)).
Proof.
  intros [w [a0 [a [fo [fn ->]]]]]. unfold deltaG_trial.
  destruct (deltaG_Recalc_Rxn _ _ _ _ _ _) as [g [ac mu]]. cbn [snd].
  exists w, a0, ac, fo, mu. reflexivity.
Qed.

Lemma deltaG_base_writes (st : VCS_SOLVE) (irxn : nat) :
  line_search_writes st (snd (deltaG_base vcs_chemPotPhase st irxn)).
Proof.
  unfold deltaG_base.
  destruct (deltaG_Recalc_Rxn _ _ _ _ _ _) as [g [ac mu]]. cbn [snd].
  exists (wt st), ac, (ActCoeff st), mu, (m_feSpecies_new st).
  destruct st; reflexivity.
Qed.

(** The halving loop writes nothing but the scratch members. *)
Lemma line_search_halve_spec (n irxn : nat)
    (dx_orig deltaGOrig forig dx : Q) (st0 st : VCS_SOLVE) :
  line_search_writes st0 st ->
  line_search_writes st0
    (snd (line_search_halve vcs_chemPotPhase n irxn dx_orig deltaGOrig
            forig dx st)).
Proof.
  revert dx st. induction n as [|n IH]; intros dx st Hw.
  - exact Hw.
  - cbn [line_search_halve]. cbn zeta.
    pose proof (deltaG_trial_writes st0
                  (set_wt (trial_moles st irxn (dx * 0.5) (wt st)) st) irxn
                  (line_search_writes_wt _ _ _ Hw)) as Hw'.
    destruct (deltaG_trial vcs_chemPotPhase _ irxn) as [g st'].
    cbn [snd] in Hw'.
    destruct (Qgtb (g * deltaGOrig) 0.0); [exact Hw' |].
    destruct (Qltb (fabs g / forig) (1.0 - 0.1 * (dx * 0.5) / dx_orig)).
    + destruct (Qltb (g * deltaGOrig) 0.0); exact Hw'.
    + apply IH. exact Hw'.
Qed.

(** So does the whole search, through the early exits, the decision at
    the full step and the halving loop. *)
Lemma line_search_spec (st : VCS_SOLVE) (irxn : nat) (dx_orig : Q) :
  line_search_writes st
    (snd (vcs_line_search vcs_chemPotPhase vcs_dcopy st irxn dx_orig)).
Proof.
  unfold vcs_line_search.
  pose proof (deltaG_base_writes st irxn) as Hw0.
  destruct (deltaG_base vcs_chemPotPhase st irxn) as [g0 st0].
  cbn [snd] in Hw0.
  destruct (line_search_rejects g0 dx_orig); [exact Hw0 |].
  unfold deltaG_full_step. cbn zeta.
  pose proof (deltaG_trial_writes st
                (set_wt (trial_moles st0 irxn dx_orig
                           (vcs_dcopy (wt st0) (soln st0)
                              (m_numSpeciesRdc st0))) st0) irxn
                (line_search_writes_wt _ _ _ Hw0)) as Hw1.
  destruct (deltaG_trial vcs_chemPotPhase _ irxn) as [g1 st1].
  cbn [snd] in Hw1. unfold line_search_decide.
  destruct (Qgtb (g1 * g0) 0.0); [exact Hw1 |].
  destruct (Qltb (fabs g1) (0.8 * (fabs g0 + 1.0E-15))).
  - destruct (Qltb (g1 * g0) 0.0); exact Hw1.
  - apply line_search_halve_spec. exact Hw1.
Qed.


(** X15.  The line search works on scratch storage: it writes [wt],
    the two activity-coefficient arrays and the two arrays of chemical
    potentials, and nothing else -- the mole numbers [soln], the phase
    totals and the steps [ds] are as before. *)
Theorem line_search_frame (st : VCS_SOLVE) (irxn : nat) (dx_orig : double) :
  let st' := snd (vcs_line_search vcs_chemPotPhase vcs_dcopy st irxn dx_orig) in
  line_search_writes st st' /\
  soln st' = soln st /\ TPhMoles st' = TPhMoles st /\ ds st' = ds st /\
  dg st' = dg st /\ sc st' = sc st.
Proof.
  cbn zeta. pose proof (line_search_spec st irxn dx_orig) as Hw.
  split; [exact Hw |].
  destruct Hw as [w [a0 [a [fo [fn ->]]]]]. repeat split.
Qed.

(** X16.  A step in the wrong direction is rejected before any trial
    point is evaluated: when the baseline [deltaGOrig] and the proposed
    step are both positive or both negative, or either is zero, the
    search returns 0 and the state is the one the baseline evaluation
    left. *)
Theorem line_search_rejects_step (st : VCS_SOLVE) (irxn : nat)
    (dx_orig deltaGOrig : double) (st0 : VCS_SOLVE) :
  deltaG_base vcs_chemPotPhase st irxn = (deltaGOrig, st0) ->
  (0 < deltaGOrig /\ 0 < dx_orig) \/ (deltaGOrig < 0 /\ dx_orig < 0) \/
  deltaGOrig == 0 \/ dx_orig == 0 ->
  vcs_line_search vcs_chemPotPhase vcs_dcopy st irxn dx_orig = (0.0, st0).
Proof.
  intros Hbase Hcase. unfold vcs_line_search. rewrite Hbase.
  assert (E : line_search_rejects deltaGOrig dx_orig = true).
  { unfold line_search_rejects.
    destruct (Qeq_bool dx_orig 0.0) eqn:Edx; [apply orb_true_r |].
    rewrite orb_false_r.
    assert (Hdx : ~ dx_orig == 0)
      by (intros H; apply Qeq_bool_neq in Edx; apply Edx; lra).
    destruct (Qgtb deltaGOrig 0.0) eqn:E1.
    - apply Qgtb_true in E1. apply Qgtb_true.
      destruct Hcase as [[_ H] | [[H _] | [H | H]]]; lra.
    - apply Qgtb_false in E1.
      destruct (Qltb deltaGOrig 0.0) eqn:E2.
      + apply Qltb_true in E2. apply Qltb_true.
        destruct Hcase as [[H _] | [[_ H] | [H | H]]]; lra.
      + apply Qltb_false in E2. apply Qeq_bool_iff. lra. }
  now rewrite E.
Qed.

End LineSearchMore.

Lemma line_search_rejects_step_witness :
  vcs_line_search chemPot_linear dcopy_prefix (st_hessian 0.0) 0 1.0
  = (0.0, snd (deltaG_base chemPot_linear (st_hessian 0.0) 0)).
Proof.
  apply (line_search_rejects_step chemPot_linear dcopy_prefix
           (st_hessian 0.0) 0 1.0
           (fst (deltaG_base chemPot_linear (st_hessian 0.0) 0))
           (snd (deltaG_base chemPot_linear (st_hessian 0.0) 0))).
  - reflexivity.
  - left. split; by_compute.
Defined.

(** ** The line search on binary64 numbers, continued *)

Section Binary64More.

#[local] Open Scope float_scope.

Variable vcs_chemPotPhase :
  B64.VCS_SOLVE -> nat -> list float -> list float -> list float ->
  list float * list float.
Variable vcs_dcopy : list float -> list float -> nat -> list float.


End Binary64More.


(** ** The free-energy evaluator *)


Section Evaluator.

Variables chemPot1 chemPot2 :
  VCS_SOLVE -> nat -> list double -> list double -> list double ->
  list double * list double.


End Evaluator.


(** ** The trial point of the line search *)

Lemma insert_loop_lookup (f : nat -> Q) (n : nat) (m0 : list Q) (x : nat) :
  for_loop n (fun k m => <[ k := f k ]> m) m0 !!! x
  = if Nat.ltb x n && Nat.ltb x (length m0) then f x else m0 !!! x.
Proof.
  induction n as [|n IH].
  - rewrite for_loop_0. reflexivity.
  - rewrite for_loop_S, list_lookup_total_insert.
    assert (Hlen : length (for_loop n (fun k m => <[ k := f k ]> m) m0)
                   = length m0).
    { apply (for_loop_invariant (fun m => length m = length m0));
        [reflexivity |].
      intros j m _ Hm. now rewrite length_insert. }
    rewrite Hlen.
    destruct (decide (n = x /\ (n < length m0)%nat)) as [[-> Hlt] | Hn].
    + replace (Nat.ltb x (S x)) with true
        by (symmetry; apply Nat.ltb_lt; lia).
      replace (Nat.ltb x (length m0)) with true
        by (symmetry; apply Nat.ltb_lt; lia).
      reflexivity.
    + rewrite IH.
      destruct (Nat.ltb x (length m0)) eqn:E1;
        [| now rewrite !andb_false_r].
      apply Nat.ltb_lt in E1. rewrite !andb_true_r.
      assert (Hne : n <> x)
        by (intros ->; apply Hn; split; [reflexivity | lia]).
      destruct (Nat.ltb x n) eqn:E2.
      * apply Nat.ltb_lt in E2.
        replace (Nat.ltb x (S n)) with true
          by (symmetry; apply Nat.ltb_lt; lia).
        reflexivity.
      * apply Nat.ltb_ge in E2.
        replace (Nat.ltb x (S n)) with false
          by (symmetry; apply Nat.ltb_ge; lia).
        reflexivity.
Qed.

(** X19.  The trial point of the line search is the composition of
    entry moved along the reaction.  When the species the reaction
    forms is not one of the components, the trial mole number of that
    species and of every component [x] is [soln[x] + dx * nu(x)], with
    [nu] as in the elimination update, and every other entry of the
    trial array is left as it was. *)
Theorem trial_moles_along_reaction (st : VCS_SOLVE) (irxn : nat) (dx : double)
    (molNum : list double) :
  (m_numComponents st <= ir st !!! irxn)%nat ->
  forall x, (x < length molNum)%nat ->
    (x = ir st !!! irxn \/ (x < m_numComponents st)%nat ->
     trial_moles st irxn dx molNum !!! x
     == soln st !!! x + dx * rxn_coefficient st irxn x) /\
    (x <> ir st !!! irxn -> (m_numComponents st <= x)%nat ->
     trial_moles st irxn dx molNum !!! x = molNum !!! x).
Proof.
  intros Hnc x Hx. unfold trial_moles, rxn_coefficient. cbn zeta.
  rewrite (insert_loop_lookup
             (fun k => soln st !!! k + (sc st !!! irxn) !!! k * dx)).
  rewrite length_insert.
  replace (Nat.ltb x (length molNum)) with true
    by (symmetry; apply Nat.ltb_lt; exact Hx).
  rewrite andb_true_r. split.
  - intros [-> | Hlt].
    + replace (Nat.ltb (ir st !!! irxn) (m_numComponents st)) with false
        by (symmetry; apply Nat.ltb_ge; exact Hnc).
      rewrite list_lookup_total_insert_eq by exact Hx.
      rewrite Nat.eqb_refl. ring.
    + replace (Nat.ltb x (m_numComponents st)) with true
        by (symmetry; apply Nat.ltb_lt; exact Hlt).
      replace (Nat.eqb x (ir st !!! irxn)) with false
        by (symmetry; apply Nat.eqb_neq; lia).
      ring.
  - intros Hne Hge.
    replace (Nat.ltb x (m_numComponents st)) with false
      by (symmetry; apply Nat.ltb_ge; exact Hge).
    now rewrite list_lookup_total_insert_ne by congruence.
Qed.

Lemma trial_moles_along_reaction_witness :
  trial_moles (st_ideal_pair 0.3) 0 0.5 [0.0; 0.0] !!! 0%nat
  == soln (st_ideal_pair 0.3) !!! 0%nat
     + 0.5 * rxn_coefficient (st_ideal_pair 0.3) 0 0.
Proof.
  apply (trial_moles_along_reaction (st_ideal_pair 0.3) 0 0.5 [0.0; 0.0]
           ltac:(vm_compute; lia) 0%nat ltac:(vm_compute; lia)).
  right. vm_compute. lia.
Defined.

(** ** The Jacobian refresh *)

Section JacobianProperties.

Variable phase_LnActCoeffJac :
  nat -> list double -> list (list double) -> list (list double).

(** X20.  The refresh of the activity-coefficient Jacobian writes the
    matrix [dLnActCoeffdMolNum] and nothing else, and it skips the
    single-species phases: when every phase is a single-species phase
    the state is left exactly as it was. *)
Theorem CalcLnActCoeffJac_frame (st : VCS_SOLVE) (moles : list double) :
  (exists J,
     vcs_CalcLnActCoeffJac phase_LnActCoeffJac st moles
     = set_dLnActCoeffdMolNum J st) /\
  ((forall p, (p < NPhase st)%nat ->
      VPhaseList_SingleSpecies st !!! p = true) ->
   vcs_CalcLnActCoeffJac phase_LnActCoeffJac st moles = st).
Proof.
  unfold vcs_CalcLnActCoeffJac. split.
  - apply (for_loop_invariant
             (fun st' => exists J, st' = set_dLnActCoeffdMolNum J st)).
    + exists (dLnActCoeffdMolNum st). destruct st; reflexivity.
    + intros p st' _ [J ->].
      destruct (negb _); eexists; reflexivity.
  - intros Hss.
    apply (for_loop_invariant (fun st' => st' = st)); [reflexivity |].
    intros p st' Hp ->. now rewrite (Hss p Hp).
Qed.

End JacobianProperties.

Lemma CalcLnActCoeffJac_frame_witness :
  vcs_CalcLnActCoeffJac (jac_fill 1.0) (st_two_solids 5.0 (-1.0) 0.0)
    [3.0; 5.0]
  = st_two_solids 5.0 (-1.0) 0.0.
Proof.
  apply (proj2 (CalcLnActCoeffJac_frame (jac_fill 1.0)
                  (st_two_solids 5.0 (-1.0) 0.0) [3.0; 5.0])).
  intros p Hp. destruct p as [|[|p]]; [reflexivity | reflexivity |].
  vm_compute in Hp. lia.
Defined.

(** ** A converged system *)

Section ConvergedSystem.

Variables MAJOR MINOR : Z.

Lemma rxn_adj_loop_all_skipped (n i0 k : nat) (st : VCS_SOLVE) :
  (forall i, (i0 <= i < i0 + n)%nat -> skips_converged st i = true) ->
  rxn_adj_loop MAJOR MINOR n i0 k st = (0%Z, st).
Proof.
  revert i0. induction n as [|n IH]; intros i0 H; [reflexivity |].
  cbn [rxn_adj_loop].
  rewrite (rxn_adj_iter_skips MAJOR MINOR i0 k st) by (apply H; lia).
  apply IH. intros i Hi. apply H. lia.
Qed.

(** X6.  On a converged system the function does nothing: when every
    reaction takes the skip-converged branch, it returns 0 and the
    state is the state of entry, steps [ds] included. *)
Theorem rxn_adj_converged_noop (st : VCS_SOLVE) :
  (forall i, (i < m_numRxnRdc st)%nat -> skips_converged st i = true) ->
  vcs_rxn_adj_cg MAJOR MINOR st = (0%Z, st).
Proof.
  intros H. apply rxn_adj_loop_all_skipped. intros i Hi. apply H. lia.
Qed.

End ConvergedSystem.

Lemma rxn_adj_converged_noop_witness :
  vcs_rxn_adj_cg 1 0 (st_two_solids 5.0 0.0 0.25)
  = (0%Z, st_two_solids 5.0 0.0 0.25).
Proof.
  apply (rxn_adj_converged_noop 1 0 (st_two_solids 5.0 0.0 0.25)).
  intros i Hi. destruct i as [|i]; [reflexivity |].
  vm_compute in Hi. lia.
Defined.
